(** * Structural tokens of a JavaScript syntax tree (index.js)

    A shallow embedding of [index.js]: the token vocabulary, the two
    emitting closures of [ASTToTokens], the visitor object handed to the
    tree walker, the strict/loose parse fallback and the final sort.

    The syntax tree is the one the parser hands over: plain JavaScript
    values, where every object may carry a [loc] and a [range].  Exceptions
    (a failed [assert], a property read on [undefined], an error of the
    tree walker or of a parser) are the [Throw] results. *)

From Stdlib Require Import ZArith List String Ascii Bool Lia.
From Stdlib Require Import Sorting.Sorted Sorting.Permutation.
Import ListNotations.

Open Scope string_scope.
Open Scope Z_scope.

(* ================================================================== *)
(** ** Exceptions *)

Inductive Exn : Type :=
| AssertionError
| TypeError
| WalkerError (msg : string)
| ParseError (msg : string)
| IOError (msg : string).

Inductive Result (A : Type) : Type :=
| Ok (a : A)
| Throw (e : Exn).

Arguments Ok {A} a.
Arguments Throw {A} e.

Definition rbind {A B : Type} (r : Result A) (k : A -> Result B) : Result B :=
  match r with
  | Ok a => k a
  | Throw e => Throw e
  end.

Declare Scope result_scope.
Delimit Scope result_scope with result.
Notation "x <- r ;; k" := (rbind r (fun x => k))
  (at level 61, r at next level, right associativity) : result_scope.

(* ================================================================== *)
(** ** JavaScript values and syntax-tree nodes *)

Record Position : Type := mkPos { line : Z; column : Z }.

Record SourceLocation : Type := mkLoc { start : Position; end_ : Position }.

Set Warnings "-register-all".

(** An object keeps its [loc] and [range] apart from its other
    properties; [None] is a property that is not there.  A node is an
    object whose properties hold a string under ["type"]. *)
Inductive Value : Type :=
| VUndefined
| VNull
| VBool (b : bool)
| VNum (n : Z)
| VStr (s : string)
| VArr (elems : list Value)
| VObj (loc : option SourceLocation) (range : option (Z * Z))
       (props : list (string * Value)).

Section ValueInduction.
Variable P : Value -> Prop.
Hypothesis Hundef : P VUndefined.
Hypothesis Hnull : P VNull.
Hypothesis Hbool : forall b, P (VBool b).
Hypothesis Hnum : forall n, P (VNum n).
Hypothesis Hstr : forall s, P (VStr s).
Hypothesis Harr : forall elems, Forall P elems -> P (VArr elems).
Hypothesis Hobj : forall loc range props,
    Forall (fun kv => P (snd kv)) props -> P (VObj loc range props).

Fixpoint Value_nested_ind (v : Value) : P v :=
  match v with
  | VUndefined => Hundef
  | VNull => Hnull
  | VBool b => Hbool b
  | VNum n => Hnum n
  | VStr s => Hstr s
  | VArr elems =>
      Harr elems
        ((fix go (l : list Value) : Forall P l :=
            match l with
            | [] => Forall_nil P
            | x :: l' => Forall_cons x (Value_nested_ind x) (go l')
            end) elems)
  | VObj loc range props =>
      Hobj loc range props
        ((fix go (l : list (string * Value)) : Forall (fun kv => P (snd kv)) l :=
            match l with
            | [] => Forall_nil _
            | kv :: l' =>
                Forall_cons kv (Value_nested_ind (snd kv)) (go l')
            end) props)
  end.
End ValueInduction.

(** [a] is [b] or sits somewhere below it. *)
Inductive Within (a : Value) : Value -> Prop :=
| Within_here : Within a a
| Within_elem : forall elems x, In x elems -> Within a x -> Within a (VArr elems)
| Within_prop : forall loc range props k x,
    In (k, x) props -> Within a x -> Within a (VObj loc range props).

(** JavaScript truthiness ([x || y] keeps [x] when it is truthy). *)
Definition truthy (v : Value) : bool :=
  match v with
  | VUndefined | VNull => false
  | VBool b => b
  | VNum n => negb (n =? 0)
  | VStr s => negb (String.eqb s "")
  | VArr _ | VObj _ _ _ => true
  end.

(** [v == null] *)
Definition is_nullish (v : Value) : bool :=
  match v with
  | VUndefined | VNull => true
  | _ => false
  end.

Fixpoint lookup (k : string) (props : list (string * Value)) : Value :=
  match props with
  | [] => VUndefined
  | (k', v) :: rest => if String.eqb k' k then v else lookup k rest
  end.

(** [v.k] for a property other than [loc] and [range]: reading a property
    of [undefined] or [null] throws, a primitive or an array has none of
    the properties the tokenizer reads. *)
Definition getProp (v : Value) (k : string) : Result Value :=
  match v with
  | VUndefined | VNull => Throw TypeError
  | VObj _ _ props => Ok (lookup k props)
  | _ => Ok VUndefined
  end.

(** [v.loc] *)
Definition getLoc (v : Value) : Result (option SourceLocation) :=
  match v with
  | VUndefined | VNull => Throw TypeError
  | VObj loc _ _ => Ok loc
  | _ => Ok None
  end.

(** [typeof v.type === "string"] and the string *)
Definition typeOf (v : Value) : option string :=
  match v with
  | VObj _ _ props =>
      match lookup "type" props with
      | VStr s => Some s
      | _ => None
      end
  | _ => None
  end.

(** [s.endsWith(suffix)] *)
Definition endsWith (s suffix : string) : bool :=
  let n := String.length s in
  let m := String.length suffix in
  (m <=? n)%nat && String.eqb (substring (n - m) m s) suffix.

(** [/^visit[A-Z]/.test(key)] *)
Definition isVisitKey (key : string) : bool :=
  String.eqb (substring 0 5 key) "visit" &&
  match String.get 5 key with
  | Some c => ((65 <=? nat_of_ascii c) && (nat_of_ascii c <=? 90))%nat
  | None => false
  end.

(* ================================================================== *)
(** ** The vocabulary *)

Definition TOKENS : list (string * Z) :=
  [ ("FOR_BEGIN", 2); ("FOR_END", 3);
    ("FUNCTION_BEGIN", 4); ("FUNCTION_END", 5);
    ("BREAK", 6);
    ("APPLY", 7);
    ("IF_BEGIN", 8); ("IF_END", 9); ("ELSE", 10);
    ("CONTINUE", 11);
    ("CLASS_BEGIN", 12); ("CLASS_END", 13);
    ("IN_CLASS_BEGIN", 14); ("IN_CLASS_END", 15);
    ("WITH_BEGIN", 16); ("WITH_END", 17);
    ("SWITCH_BEGIN", 18); ("SWITCH_END", 19);
    ("CASE", 20);
    ("RETURN", 21);
    ("THROW", 22);
    ("TRY", 23);
    ("CATCH_BEGIN", 24); ("CATCH_END", 25);
    ("WHILE_BEGIN", 26); ("WHILE_END", 27);
    ("DO_WHILE_BEGIN", 28); ("DO_WHILE_END", 29);
    ("ASSIGN", 30);
    ("ARRAY_BEGIN", 31); ("ARRAY_END", 32);
    ("OBJECT_BEGIN", 33); ("OBJECT_END", 34);
    ("TERNARY", 35);
    ("YIELD", 36);
    ("GEN_EXPR_BEGIN", 37); ("GEN_EXPR_END", 38);
    ("ARRAY_COMP_BEGIN", 39); ("ARRAY_COMP_END", 40);
    ("IMPORT", 41);
    ("AWAIT", 42);
    ("DECORATOR", 43);
    ("EXPORT", 44) ].

(** [accum[value] = key] on an object used as a map: an existing entry
    is overwritten, a new one is added. *)
Fixpoint assign (accum : list (Z * string)) (value : Z) (key : string)
  : list (Z * string) :=
  match accum with
  | [] => [(value, key)]
  | (v, k) :: rest =>
      if v =? value then (v, key) :: rest else (v, k) :: assign rest value key
  end.

Definition TOKENS_REVERSE : list (Z * string) :=
  fold_left (fun accum kv => assign accum (snd kv) (fst kv)) TOKENS [].

(** [T.NAME]: [None] is [undefined]. *)
Fixpoint lookupName (name : string) (tbl : list (string * Z)) : option Z :=
  match tbl with
  | [] => None
  | (k, v) :: rest => if String.eqb k name then Some v else lookupName name rest
  end.

Definition T (name : string) : option Z := lookupName name TOKENS.

(** [TOKENS_REVERSE[tok]] *)
Fixpoint lookupId (tok : Z) (tbl : list (Z * string)) : option string :=
  match tbl with
  | [] => None
  | (v, k) :: rest => if v =? tok then Some k else lookupId tok rest
  end.

(** [Object.keys(o).length] *)
Definition keyCount {K V : Type} (o : list (K * V)) : Z :=
  Z.of_nat (List.length o).

(* ================================================================== *)
(** ** Tokens and the two emitters *)

Module Token.
Record t : Type := mk {
  key : option string;   (* token.key, [None] when the id has no name *)
  value : Z;             (* token.value *)
  line : Z;
  column : Z;
  length : Z
}.
End Token.

Abbreviation Token := Token.t.

(** The second argument of [emit] and [emitEnd] is a path of the walker
    (whose [value] is the node it points at) or a node. *)
Inductive Anchor : Type :=
| APath (value : Value)
| ANode (node : Value).

(** [node != null] *)
Definition anchorNonNull (a : Anchor) : bool :=
  match a with
  | APath _ => true
  | ANode n => negb (is_nullish n)
  end.

(** The path object itself, as far as the emitters read it: an object
    without [loc]. *)
Definition pathObject : Value := VObj None None [].

(** [node.value || node] *)
Definition valueOrSelf (a : Anchor) : Result Value :=
  match a with
  | APath v => Ok (if truthy v then v else pathObject)
  | ANode n =>
      (v <- getProp n "value" ;;
       Ok (if truthy v then v else n))%result
  end.

(** [node.loc.start] / [node.loc.end] on the object picked above:
    [undefined.start] throws. *)
Definition locOf (v : Value) : Result SourceLocation :=
  (l <- getLoc v ;;
   match l with
   | Some l => Ok l
   | None => Throw TypeError
   end)%result.

(** [getLength(node)] *)
Definition getLength (node : Value) : Result Z :=
  match node with
  | VUndefined | VNull => Throw TypeError
  | VObj _ (Some (a, b)) _ => Ok (b - a)
  | _ => Throw TypeError
  end.

(** [emit(tok, node, length)]; a [length] of [None] is [undefined]. *)
Definition emit (tok : option Z) (node : Anchor) (length : option Z)
           (res : list Token) : Result (list Token) :=
  match tok with
  | None => Throw AssertionError
  | Some tok =>
      if negb (anchorNonNull node) then Throw AssertionError else
      match length with
      | None => Throw AssertionError
      | Some len =>
          if negb (0 <? len) then Throw AssertionError else
          (node' <- valueOrSelf node ;;
           l <- locOf node' ;;
           Ok (res ++ [ Token.mk (lookupId tok TOKENS_REVERSE) tok
                          (line (start l)) (column (start l)) len ])%list)%result
      end
  end.

(** [emitEnd(tok, node)].  JavaScript binds the two declared parameters
    and drops what a call passes beyond them; [surplus] is that third
    argument of a call site, kept visible and unused. *)
Definition emitEnd (tok : option Z) (node : Anchor) (surplus : option Z)
           (res : list Token) : Result (list Token) :=
  match tok with
  | None => Throw AssertionError
  | Some tok =>
      (node' <- valueOrSelf node ;;
       if is_nullish node' then Throw AssertionError else
       match lookupId tok TOKENS_REVERSE with
       | None => Throw TypeError
       | Some tokKey =>
           if negb (endsWith tokKey "END") then Throw AssertionError else
           l <- locOf node' ;;
           Ok (res ++ [ Token.mk (Some tokKey) tok
                          (line (end_ l)) (Z.max (column (end_ l) - 1) 0) 1 ])%list
       end)%result
  end.

(* ================================================================== *)
(** ** Visitor methods

    A visitor method runs against the token array [res], the flag
    [needToCallTraverse] of the walker's context object ([this]) and the
    local [traversed] of the wrapper that [makeTraverser] puts around
    it. *)

Record VState : Type := mkState {
  res : list Token;
  needToCallTraverse : bool;
  traversed : bool
}.

Definition M (A : Type) : Type := VState -> Result (A * VState).

Definition ret {A : Type} (a : A) : M A := fun s => Ok (a, s).

Definition bind {A B : Type} (m : M A) (k : A -> M B) : M B :=
  fun s =>
    match m s with
    | Ok (a, s') => k a s'
    | Throw e => Throw e
    end.

Declare Scope visit_scope.
Delimit Scope visit_scope with visit.
Notation "x <- m ;; k" := (bind m (fun x => k))
  (at level 61, m at next level, right associativity) : visit_scope.
Notation "m ;; k" := (bind m (fun _ => k))
  (at level 61, right associativity) : visit_scope.

(** A computation that only reads (and may throw). *)
Definition pure {A : Type} (r : Result A) : M A :=
  fun s => match r with Ok a => Ok (a, s) | Throw e => Throw e end.

(** A computation on the token array alone. *)
Definition onRes (f : list Token -> Result (list Token)) : M unit :=
  fun s =>
    match f (res s) with
    | Ok r => Ok (tt, mkState r (needToCallTraverse s) (traversed s))
    | Throw e => Throw e
    end.

Definition setTraversed (b : bool) : M unit :=
  fun s => Ok (tt, mkState (res s) (needToCallTraverse s) b).

(** [this.traverse(path)] and [this.visit(childPath)] of the walker's
    context: both clear [needToCallTraverse] and then walk. *)
Definition contextCall (walk : list Token -> Result (list Token)) : M unit :=
  fun s =>
    match walk (res s) with
    | Ok r => Ok (tt, mkState r false (traversed s))
    | Throw e => Throw e
    end.

(** What a method sees of [this]: [traverse] on its own path and [visit]
    on the child path [path.get(name)]. *)
Record Context : Type := mkContext {
  this_traverse : M unit;
  this_visit : string -> M unit
}.

(** A method body: [this], [path.value], the [traverse] and [visit]
    callbacks of the wrapper; the result is the truthiness of what the
    method returns. *)
Definition Body : Type :=
  Context -> Value -> M unit -> (string -> M unit) -> M bool.

(** The function [makeTraverser] puts in place of a [visit...] entry. *)
Definition wrapVisit (value : Body) (this : Context) (path : Value) : M unit :=
  fun s =>
    let outer := traversed s in
    match
      value this path
            (this_traverse this ;; setTraversed true)%visit
            (fun name => this_visit this name ;; setTraversed true)%visit
            (mkState (res s) (needToCallTraverse s) false)
    with
    | Throw e => Throw e
    | Ok (r, s1) =>
        match
          (if negb (traversed s1) && negb r
           then this_traverse this else ret tt) s1
        with
        | Throw e => Throw e
        | Ok (_, s2) =>
            Ok (tt, mkState (res s2) (needToCallTraverse s2) outer)
        end
    end.

Definition emitM (tok : option Z) (node : Anchor) (length : option Z) : M unit :=
  onRes (emit tok node length).

Definition emitEndM (tok : option Z) (node : Anchor) (surplus : option Z) : M unit :=
  onRes (emitEnd tok node surplus).

(** ["...".length], on the ASCII texts the tokenizer measures *)
Definition len (s : string) : Z := Z.of_nat (String.length s).

(** [v.length]: a string has one, an array has one; [None] is
    [undefined]. *)
Definition lengthOf (v : Value) : Result (option Z) :=
  match v with
  | VUndefined | VNull => Throw TypeError
  | VStr s => Ok (Some (len s))
  | VArr elems => Ok (Some (Z.of_nat (List.length elems)))
  | VObj _ _ props =>
      Ok (match lookup "length" props with VNum n => Some n | _ => None end)
  | _ => Ok None
  end.

(** [v == 'MemberExpression'] on the [type] of a node *)
Definition looseEqStr (v : Value) (s : string) : bool :=
  match v with
  | VStr s' => String.eqb s' s
  | _ => false
  end.

Definition visitForStatement : Body := fun _ path traverse _ =>
  (emitM (T "FOR_BEGIN") (APath path) (Some (len "for")) ;;
   traverse ;;
   emitEndM (T "FOR_END") (APath path) (Some (len "")) ;;
   ret false)%visit.

Definition visitFunction : Body := fun _ path traverse _ =>
  (emitM (T "FUNCTION_BEGIN") (APath path) (Some (len "function")) ;;
   traverse ;;
   emitEndM (T "FUNCTION_END") (APath path) None ;;
   ret false)%visit.

Definition visitBreakStatement : Body := fun _ node _ _ =>
  (l <- pure (getLength node) ;;
   emitM (T "BREAK") (ANode node) (Some l) ;;
   ret false)%visit.

Definition visitContinueStatement : Body := fun _ node _ _ =>
  (l <- pure (getLength node) ;;
   emitM (T "CONTINUE") (ANode node) (Some l) ;;
   ret false)%visit.

(** The fourth argument [node + 1] of the call to [emit] is dropped. *)
Definition visitCallExpression : Body := fun _ node _ _ =>
  (callee <- pure (getProp node "callee") ;;
   ty <- pure (getProp callee "type") ;;
   if looseEqStr ty "MemberExpression" then
     node' <- pure (getProp callee "property") ;;
     l <- pure (getLength node') ;;
     emitM (T "APPLY") (ANode node') (Some l) ;;
     ret false
   else
     l <- pure (getLength callee) ;;
     emitM (T "APPLY") (ANode node) (Some l) ;;
     ret false)%visit.

Definition visitIfStatement : Body := fun _ node _ visit =>
  (emitM (T "IF_BEGIN") (ANode node) (Some (len "if")) ;;
   visit "test" ;;
   visit "consequent" ;;
   alternate <- pure (getProp node "alternate") ;;
   (if truthy alternate then
      emitM (T "ELSE") (ANode alternate) (Some 1) ;;
      visit "alternate"
    else ret tt) ;;
   emitEndM (T "IF_END") (ANode node) None ;;
   ret false)%visit.

Definition visitClassDeclaration : Body := fun _ path traverse _ =>
  (emitM (T "CLASS_BEGIN") (APath path) (Some (len "class")) ;;
   traverse ;;
   emitEndM (T "CLASS_END") (APath path) None ;;
   ret false)%visit.

Definition visitClassExpression : Body := fun _ path traverse _ =>
  (emitM (T "IN_CLASS_BEGIN") (APath path) (Some (len "class")) ;;
   traverse ;;
   emitEndM (T "IN_CLASS_END") (APath path) None ;;
   ret false)%visit.

Definition visitWithStatement : Body := fun _ path traverse _ =>
  (emitM (T "WITH_BEGIN") (APath path) (Some (len "with")) ;;
   traverse ;;
   emitEndM (T "WITH_END") (APath path) None ;;
   ret false)%visit.

Definition visitSwitchStatement : Body := fun _ path traverse _ =>
  (emitM (T "SWITCH_BEGIN") (APath path) (Some (len "switch")) ;;
   traverse ;;
   emitEndM (T "SWITCH_END") (APath path) None ;;
   ret false)%visit.

Definition visitSwitchCase : Body := fun _ node _ _ =>
  (test <- pure (getProp node "test") ;;
   emitM (T "CASE") (ANode node)
         (Some (len (if is_nullish test then "default" else "case"))) ;;
   ret false)%visit.

Definition visitReturnStatement : Body := fun _ node _ _ =>
  (emitM (T "RETURN") (ANode node) (Some (len "return")) ;;
   ret false)%visit.

Definition visitThrowStatement : Body := fun _ node _ _ =>
  (emitM (T "THROW") (ANode node) (Some (len "throw")) ;;
   ret false)%visit.

Definition visitTryStatement : Body := fun _ node _ _ =>
  (emitM (T "TRY") (ANode node) (Some (len "try")) ;;
   ret false)%visit.

Definition visitCatchClause : Body := fun _ path traverse _ =>
  (emitM (T "CATCH_BEGIN") (APath path) (Some (len "catch")) ;;
   traverse ;;
   emitEndM (T "CATCH_END") (APath path) None ;;
   ret false)%visit.

Definition visitWhileStatement : Body := fun _ path traverse _ =>
  (emitM (T "WHILE_BEGIN") (APath path) (Some (len "while")) ;;
   traverse ;;
   emitEndM (T "WHILE_END") (APath path) None ;;
   ret false)%visit.

Definition visitDoWhileStatement : Body := fun _ path traverse _ =>
  (emitM (T "DO_WHILE_BEGIN") (APath path) (Some (len "do")) ;;
   traverse ;;
   emitEndM (T "DO_WHILE_END") (APath path) None ;;
   ret false)%visit.

Definition visitForOfStatement : Body := fun _ path _ visit =>
  (emitM (T "FOR_BEGIN") (APath path) (Some (len "for")) ;;
   visit "left" ;;
   left <- pure (getProp path "left") ;;
   emitM (T "ASSIGN") (ANode left) (Some (len "=")) ;;
   visit "right" ;;
   visit "body" ;;
   emitEndM (T "FOR_END") (APath path) None ;;
   ret false)%visit.

(** [this.visitForOfStatement] is the wrapped entry of the traverser. *)
Definition visitForInStatement : Body := fun this path _ _ =>
  (wrapVisit visitForOfStatement this path ;;
   ret true)%visit.

Definition visitVariableDeclarator : Body := fun _ node _ _ =>
  (init <- pure (getProp node "init") ;;
   (if negb (is_nullish init) then
      id <- pure (getProp node "id") ;;
      l <- pure (getLength id) ;;
      emitM (T "ASSIGN") (ANode node) (Some l)
    else ret tt) ;;
   ret false)%visit.

Definition visitArrayExpression : Body := fun _ path t _ =>
  (emitM (T "ARRAY_BEGIN") (APath path) (Some (len "[")) ;;
   t ;;
   emitEndM (T "ARRAY_END") (APath path) None ;;
   ret false)%visit.

Definition visitObjectExpression : Body := fun _ path t _ =>
  (emitM (T "OBJECT_BEGIN") (APath path) (Some (len "{")) ;;
   t ;;
   emitEndM (T "OBJECT_END") (APath path) None ;;
   ret false)%visit.

Definition visitAssignmentExpression : Body := fun _ path _ visit =>
  (visit "left" ;;
   operator <- pure (getProp path "operator") ;;
   l <- pure (lengthOf operator) ;;
   emitM (T "ASSIGN") (APath path) l ;;
   visit "right" ;;
   ret false)%visit.

Definition visitUpdateExpression : Body := fun _ path t _ =>
  (t ;;
   operator <- pure (getProp path "operator") ;;
   l <- pure (lengthOf operator) ;;
   emitM (T "ASSIGN") (APath path) l ;;
   ret false)%visit.

Definition visitConditionalExpression : Body := fun _ node _ _ =>
  (test <- pure (getProp node "test") ;;
   l <- pure (getLength test) ;;
   emitM (T "TERNARY") (ANode node) (Some (l + len " ?")) ;;
   ret false)%visit.

Definition visitYieldExpression : Body := fun _ node _ _ =>
  (emitM (T "YIELD") (ANode node) (Some (len "yield")) ;;
   ret false)%visit.

Definition visitGeneratorExpression : Body := fun _ path traverse _ =>
  (emitM (T "GEN_EXPR_BEGIN") (APath path) (Some (len "(")) ;;
   traverse ;;
   emitEndM (T "GEN_EXPR_END") (APath path) None ;;
   ret false)%visit.

Definition visitComprehensionExpression : Body := fun _ path traverse _ =>
  (emitM (T "ARRAY_COMP_BEGIN") (APath path) (Some (len "[")) ;;
   traverse ;;
   emitEndM (T "ARRAY_COMP_END") (APath path) None ;;
   ret false)%visit.

Definition visitImportDeclaration : Body := fun _ path _ _ =>
  (emitM (T "IMPORT") (APath path) (Some (len "import")) ;;
   ret false)%visit.

Definition visitImportExpression : Body := fun _ path _ _ =>
  (emitM (T "IMPORT") (APath path) (Some (len "import")) ;;
   ret false)%visit.

Definition visitAwaitExpression : Body := fun _ path _ _ =>
  (emitM (T "AWAIT") (APath path) (Some (len "await")) ;;
   ret false)%visit.

Definition visitDecorator : Body := fun _ path _ _ =>
  (emitM (T "DECORATOR") (APath path) (Some (len "@")) ;;
   ret false)%visit.

Definition visitExportNamedDeclaration : Body := fun _ path _ _ =>
  (emitM (T "EXPORT") (APath path) (Some (len "export")) ;;
   ret false)%visit.

Definition visitExportDefaultDeclaration : Body := fun _ path _ _ =>
  (emitM (T "EXPORT") (APath path) (Some (len "export")) ;;
   ret false)%visit.

Definition visitExportAllDeclaration : Body := fun _ path _ _ =>
  (emitM (T "EXPORT") (APath path) (Some (len "export")) ;;
   ret false)%visit.

(** The object literal handed to [makeTraverser]. *)
Definition visitorMethods : list (string * Body) :=
  [ ("visitForStatement", visitForStatement);
    ("visitFunction", visitFunction);
    ("visitBreakStatement", visitBreakStatement);
    ("visitContinueStatement", visitContinueStatement);
    ("visitCallExpression", visitCallExpression);
    ("visitIfStatement", visitIfStatement);
    ("visitClassDeclaration", visitClassDeclaration);
    ("visitClassExpression", visitClassExpression);
    ("visitWithStatement", visitWithStatement);
    ("visitSwitchStatement", visitSwitchStatement);
    ("visitSwitchCase", visitSwitchCase);
    ("visitReturnStatement", visitReturnStatement);
    ("visitThrowStatement", visitThrowStatement);
    ("visitTryStatement", visitTryStatement);
    ("visitCatchClause", visitCatchClause);
    ("visitWhileStatement", visitWhileStatement);
    ("visitDoWhileStatement", visitDoWhileStatement);
    ("visitForOfStatement", visitForOfStatement);
    ("visitForInStatement", visitForInStatement);
    ("visitVariableDeclarator", visitVariableDeclarator);
    ("visitArrayExpression", visitArrayExpression);
    ("visitObjectExpression", visitObjectExpression);
    ("visitAssignmentExpression", visitAssignmentExpression);
    ("visitUpdateExpression", visitUpdateExpression);
    ("visitConditionalExpression", visitConditionalExpression);
    ("visitYieldExpression", visitYieldExpression);
    ("visitGeneratorExpression", visitGeneratorExpression);
    ("visitComprehensionExpression", visitComprehensionExpression);
    ("visitImportDeclaration", visitImportDeclaration);
    ("visitImportExpression", visitImportExpression);
    ("visitAwaitExpression", visitAwaitExpression);
    ("visitDecorator", visitDecorator);
    ("visitExportNamedDeclaration", visitExportNamedDeclaration);
    ("visitExportDefaultDeclaration", visitExportDefaultDeclaration);
    ("visitExportAllDeclaration", visitExportAllDeclaration) ].

(** [makeTraverser(obj)]: an entry whose key matches [/^visit[A-Z]/] is
    replaced by its wrapper; the object literal has no other entry, and
    [makeTraverser_wraps_all] checks it. *)
Definition makeTraverser (obj : list (string * Body))
  : list (string * (Context -> Value -> M unit)) :=
  fold_left
    (fun accum kv =>
       if isVisitKey (fst kv)
       then (accum ++ [(fst kv, wrapVisit (snd kv))])%list
       else (accum ++ [(fst kv, fun this path =>
                          (snd kv this path (ret tt) (fun _ => ret tt) ;;
                           ret tt)%visit)])%list)
    obj [].

Definition traverser : list (string * (Context -> Value -> M unit)) :=
  makeTraverser visitorMethods.

Fixpoint method (name : string)
         (tbl : list (string * (Context -> Value -> M unit)))
  : option (Context -> Value -> M unit) :=
  match tbl with
  | [] => None
  | (k, f) :: rest => if String.eqb k name then Some f else method name rest
  end.

(* ================================================================== *)
(** ** The tree walker

    [visit(ast, visitor)] of the walker's library, as far as the
    tokenizer drives it.  The library's type table is not part of
    [index.js]: the names of a node type's child fields are a parameter,
    and the one abstract type with a method of its own, [Function],
    covers the three function nodes of the parser's tree. *)

Definition supertypeList (ty : string) : list string :=
  if String.eqb ty "FunctionDeclaration"
     || String.eqb ty "FunctionExpression"
     || String.eqb ty "ArrowFunctionExpression"
  then [ty; "Function"]
  else [ty].

Fixpoint firstMethodName (candidates : list string) : option string :=
  match candidates with
  | [] => None
  | c :: rest =>
      match method ("visit" ++ c) traverser with
      | Some _ => Some ("visit" ++ c)
      | None => firstMethodName rest
      end
  end.

(** [this._methodNameTable[value.type]] *)
Definition methodNameTable (ty : string) : option string :=
  firstMethodName (supertypeList ty).

Definition methodNameOf (value : Value) : option string :=
  match typeOf value with
  | Some ty => methodNameTable ty
  | None => None
  end.

(** [context.invokeVisitorMethod(methodName)]: a fresh context with
    [needToCallTraverse] set; the wrapper returns [undefined], so the
    walker only checks that the flag has been cleared. *)
Definition invokeVisitorMethod (methodName : string) (this : Context)
           (path : Value) (res0 : list Token) : Result (list Token) :=
  match method methodName traverser with
  | None => Throw TypeError
  | Some f =>
      match f this path (mkState res0 true false) with
      | Throw e => Throw e
      | Ok (_, s) =>
          if needToCallTraverse s
          then Throw (WalkerError "Must either call this.traverse or return false")
          else Ok (res s)
      end
  end.

Fixpoint hasProp (k : string) (props : list (string * Value)) : bool :=
  match props with
  | [] => false
  | kv :: rest => String.eqb (fst kv) k || hasProp k rest
  end.

(** The walker's loops, over the function that visits one value. *)
Section Loops.
Variable visitOne : Value -> list Token -> Result (list Token).

(** [path.each(visitor.visitWithoutReset, visitor)] on an array *)
Fixpoint eachElem (l : list Value) (r : list Token) {struct l}
  : Result (list Token) :=
  match l with
  | [] => Ok r
  | x :: l' =>
      match visitOne x r with
      | Ok r' => eachElem l' r'
      | Throw e => Throw e
      end
  end.

(** [visitor.visitWithoutReset(path.get(name))]: the child path of a
    property that is not there holds [undefined]. *)
Fixpoint visitProp (name : string) (ps : list (string * Value)) {struct ps}
  : list Token -> Result (list Token) :=
  match ps with
  | [] => fun r => Ok r
  | kv :: ps' =>
      if String.eqb (fst kv) name then visitOne (snd kv) else visitProp name ps'
  end.

(** the child fields of a node, by name, in the library's order *)
Fixpoint visitFields (props : list (string * Value)) (ns : list string)
         (r : list Token) {struct ns} : Result (list Token) :=
  match ns with
  | [] => Ok r
  | n :: ns' =>
      match visitProp n props r with
      | Ok r' => visitFields props ns' r'
      | Throw e => Throw e
      end
  end.

(** [Object.keys(object)] of an object without a [type] *)
Fixpoint visitKeys (ps : list (string * Value)) (r : list Token) {struct ps}
  : Result (list Token) :=
  match ps with
  | [] => Ok r
  | kv :: ps' =>
      match visitOne (snd kv) r with
      | Ok r' => visitKeys ps' r'
      | Throw e => Throw e
      end
  end.
End Loops.

Section Walker.

(** [types.getFieldNames] on a node of the given type: the child
    fields in visiting order, [None] for a type the library does not
    define. *)
Variable fieldNames : string -> option (list string).

(** [visitChildren(path, visitor)] on an object *)
Definition visitChildrenWith
           (visitOne : Value -> list Token -> Result (list Token))
           (ty : option string) (props : list (string * Value))
           (r0 : list Token) : Result (list Token) :=
  match
    match ty with
    | Some ty => fieldNames ty
    | None => None
    end
  with
  | Some names => visitFields visitOne props names r0
  | None =>
      if hasProp "type" props
      then Throw (WalkerError "did not recognize object of type")
      else visitKeys visitOne props r0
  end.

Fixpoint visitWithoutReset (value : Value) (res0 : list Token) {struct value}
  : Result (list Token) :=
  match value with
  | VArr elems => eachElem visitWithoutReset elems res0
  | VObj _ _ props =>
      let visitChildren :=
        visitChildrenWith visitWithoutReset (typeOf value) props in
      match methodNameOf value with
      | Some methodName =>
          invokeVisitorMethod methodName
            (mkContext (contextCall visitChildren)
                       (fun name =>
                          contextCall (visitProp visitWithoutReset name props)))
            value res0
      | None => visitChildren res0
      end
  | _ => Ok res0
  end.

(** [visitChildren(path, visitor)] *)
Definition visitChildren (value : Value) (r0 : list Token)
  : Result (list Token) :=
  match value with
  | VArr elems => eachElem visitWithoutReset elems r0
  | VObj _ _ props =>
      visitChildrenWith visitWithoutReset (typeOf value) props r0
  | _ => Ok r0
  end.

(** [ASTToTokens(ast)] *)
Definition ASTToTokens (ast : Value) : Result (list Token) :=
  visitWithoutReset ast [].

End Walker.

(* ================================================================== *)
(** ** Sorting, parsing, and the entry point *)

(** [Array.prototype.sort(compareFn)] of the language: a stable sort,
    here by insertion from the right end.  An element moves behind a
    later one only when [compareFn] says it is greater. *)
Section Sort.
Variable compareFn : Token -> Token -> Z.

Fixpoint insert (x : Token) (l : list Token) : list Token :=
  match l with
  | [] => [x]
  | y :: l' => if 0 <? compareFn x y then y :: insert x l' else x :: l
  end.

Definition sort (l : list Token) : list Token := fold_right insert [] l.
End Sort.

(** The comparison function of [doParse]. *)
Definition byPosition (a b : Token) : Z :=
  let diff := Token.line a - Token.line b in
  if diff =? 0 then Token.column a - Token.column b else diff.

(** ['' + e] *)
Definition message (e : Exn) : string :=
  match e with
  | AssertionError => "AssertionError"
  | TypeError => "TypeError"
  | WalkerError msg => "Error: " ++ msg
  | ParseError msg => "SyntaxError: " ++ msg
  | IOError msg => "Error: " ++ msg
  end.

(** What [console.log] prints, before [JSON.stringify]. *)
Inductive Output : Type :=
| OutNumber (n : Z)
| OutMapping (m : list (Z * string))
| OutTokens (toks : list Token).

(** A run: the lines on the error stream and either the value printed on
    the output stream or the exception that ended the process. *)
Record Run : Type := mkRun {
  stderr : list string;
  stdout : Result Output
}.

Section Pipeline.

(** [fs.readFileSync(filename, {encoding: 'utf-8'})] *)
Variable readFileSync : string -> Result string.

(** The two parsers with their plugins and the options of
    [parseToAst]: [acorn.Parser] and [acornLoose.LooseParser]. *)
Variable strictParse : string -> Result Value.
Variable looseParse : string -> Result Value.

Variable fieldNames : string -> option (list string).

(** [parseToAst(content)], with what it writes on the error stream *)
Definition parseToAst (content : string) : list string * Result Value :=
  match strictParse content with
  | Ok ast => ([], Ok ast)
  | Throw e => (["Got parse error: " ++ message e], looseParse content)
  end.

(** [doParse(filename)] *)
Definition doParse (filename : string) : list string * Result (list Token) :=
  match readFileSync filename with
  | Throw e => ([], Throw e)
  | Ok content =>
      let (log, ast) := parseToAst content in
      (log,
       (ast <- ast ;;
        res <- ASTToTokens fieldNames ast ;;
        Ok (sort byPosition res))%result)
  end.

(** The dispatch on [process.argv] at the end of the file; an argument
    that is not there is [undefined] and equals no string. *)
Definition main (argv : list string) : Run :=
  match nth_error argv 3 with
  | Some "AMOUNT" => mkRun [] (Ok (OutNumber (keyCount TOKENS + 1)))
  | Some "MAPPING" => mkRun [] (Ok (OutMapping TOKENS_REVERSE))
  | _ =>
      match nth_error argv 2 with
      | None => mkRun [] (Throw TypeError)
      | Some filename =>
          let (log, r) := doParse filename in
          mkRun log
                match r with
                | Ok toks => Ok (OutTokens toks)
                | Throw e => Throw e
                end
      end
  end.

End Pipeline.

(* ================================================================== *)
(** ** The parser's trees for the scenario inputs

    The parsers are outside [index.js].  The trees below are what the
    strict parser returns, with [locations] and [ranges] on, for the
    source texts of the scenarios; lines count from 1 and columns
    from 0. *)

(** A node on line 1 from offset [a] to offset [b]. *)
Definition node1 (ty : string) (a b : Z) (fields : list (string * Value)) : Value :=
  VObj (Some (mkLoc (mkPos 1 a) (mkPos 1 b))) (Some (a, b))
       (("type", VStr ty) :: ("start", VNum a) :: ("end", VNum b) :: fields).

Definition ident (name : string) (a b : Z) : Value :=
  node1 "Identifier" a b [("name", VStr name)].

Definition program (a b : Z) (body : list Value) : Value :=
  node1 "Program" a b [("body", VArr body); ("sourceType", VStr "module")].

(** The child fields of the node types of the parser's tree, in the
    order the walker's library defines them. *)
Definition estreeFields (ty : string) : option (list string) :=
  let tbl : list (string * list string) :=
    [ ("Program", ["type"; "body"]);
      ("EmptyStatement", ["type"]);
      ("BlockStatement", ["type"; "body"]);
      ("ExpressionStatement", ["type"; "expression"]);
      ("IfStatement", ["type"; "test"; "consequent"; "alternate"]);
      ("LabeledStatement", ["type"; "label"; "body"]);
      ("BreakStatement", ["type"; "label"]);
      ("ContinueStatement", ["type"; "label"]);
      ("WithStatement", ["type"; "object"; "body"]);
      ("SwitchStatement", ["type"; "discriminant"; "cases"; "lexical"]);
      ("ReturnStatement", ["type"; "argument"]);
      ("ThrowStatement", ["type"; "argument"]);
      ("TryStatement", ["type"; "block"; "handler"; "handlers";
                        "guardedHandlers"; "finalizer"]);
      ("CatchClause", ["type"; "param"; "guard"; "body"]);
      ("WhileStatement", ["type"; "test"; "body"]);
      ("DoWhileStatement", ["type"; "body"; "test"]);
      ("ForStatement", ["type"; "init"; "test"; "update"; "body"]);
      ("ForInStatement", ["type"; "left"; "right"; "body"]);
      ("ForOfStatement", ["type"; "left"; "right"; "body"; "await"]);
      ("DebuggerStatement", ["type"]);
      ("FunctionDeclaration", ["type"; "id"; "params"; "body"; "generator";
                               "async"; "expression"]);
      ("FunctionExpression", ["type"; "id"; "params"; "body"; "generator";
                              "async"; "expression"]);
      ("ArrowFunctionExpression", ["type"; "id"; "params"; "body";
                                   "generator"; "async"; "expression"]);
      ("VariableDeclaration", ["type"; "kind"; "declarations"]);
      ("VariableDeclarator", ["type"; "id"; "init"]);
      ("ThisExpression", ["type"]);
      ("ArrayExpression", ["type"; "elements"]);
      ("ObjectExpression", ["type"; "properties"]);
      ("Property", ["type"; "kind"; "key"; "value"; "method"; "shorthand";
                    "computed"]);
      ("SequenceExpression", ["type"; "expressions"]);
      ("UnaryExpression", ["type"; "operator"; "argument"; "prefix"]);
      ("BinaryExpression", ["type"; "operator"; "left"; "right"]);
      ("AssignmentExpression", ["type"; "operator"; "left"; "right"]);
      ("UpdateExpression", ["type"; "operator"; "argument"; "prefix"]);
      ("LogicalExpression", ["type"; "operator"; "left"; "right"]);
      ("ConditionalExpression", ["type"; "test"; "consequent"; "alternate"]);
      ("NewExpression", ["type"; "callee"; "arguments"]);
      ("CallExpression", ["type"; "callee"; "arguments"]);
      ("MemberExpression", ["type"; "object"; "property"; "computed"]);
      ("SwitchCase", ["type"; "test"; "consequent"]);
      ("Identifier", ["type"; "name"]);
      ("Literal", ["type"; "value"; "regex"]) ] in
  (fix find (l : list (string * list string)) : option (list string) :=
     match l with
     | [] => None
     | (k, ns) :: rest => if String.eqb k ty then Some ns else find rest
     end) tbl.

(** Scenario A: [for (let i = 0; i < 3; i++) {}] *)
Definition sourceA : string := "for (let i = 0; i < 3; i++) {}".

Definition forA : Value :=
      node1 "ForStatement" 0 30
        [ ("init",
           node1 "VariableDeclaration" 5 14
             [ ("declarations",
                VArr [ node1 "VariableDeclarator" 9 14
                         [ ("id", ident "i" 9 10);
                           ("init", node1 "Literal" 13 14
                                      [("value", VNum 0); ("raw", VStr "0")]) ] ]);
               ("kind", VStr "let") ]);
          ("test",
           node1 "BinaryExpression" 16 21
             [ ("left", ident "i" 16 17);
               ("operator", VStr "<");
               ("right", node1 "Literal" 20 21
                           [("value", VNum 3); ("raw", VStr "3")]) ]);
          ("update",
           node1 "UpdateExpression" 23 26
             [ ("operator", VStr "++");
               ("prefix", VBool false);
               ("argument", ident "i" 23 24) ]);
          ("body", node1 "BlockStatement" 28 30 [("body", VArr [])]) ].

Definition astA : Value := program 0 30 [forA].

(** Scenario C: [if (x) {} else {}] *)
Definition sourceC : string := "if (x) {} else {}".

Definition ifC : Value :=
  node1 "IfStatement" 0 17
    [ ("test", ident "x" 4 5);
      ("consequent", node1 "BlockStatement" 7 9 [("body", VArr [])]);
      ("alternate", node1 "BlockStatement" 15 17 [("body", VArr [])]) ].

Definition astC : Value := program 0 17 [ifC].

(** An arrow function: [() => 1] *)
Definition sourceArrow : string := "() => 1".

Definition astArrow : Value :=
  program 0 7
    [ node1 "ExpressionStatement" 0 7
        [ ("expression",
           node1 "ArrowFunctionExpression" 0 7
             [ ("id", VNull);
               ("expression", VBool true);
               ("generator", VBool false);
               ("async", VBool false);
               ("params", VArr []);
               ("body", node1 "Literal" 6 7
                          [("value", VNum 1); ("raw", VStr "1")]) ]) ] ].

(** Two calls that start at the same column, inside an update that
    ends the statement: [x[f()()]++] *)
Definition sourceTie : string := "x[f()()]++".

Definition astTie : Value :=
  program 0 10
    [ node1 "ExpressionStatement" 0 10
        [ ("expression",
           node1 "UpdateExpression" 0 10
             [ ("operator", VStr "++");
               ("prefix", VBool false);
               ("argument",
                node1 "MemberExpression" 0 8
                  [ ("object", ident "x" 0 1);
                    ("property",
                     node1 "CallExpression" 2 7
                       [ ("callee",
                          node1 "CallExpression" 2 5
                            [ ("callee", ident "f" 2 3);
                              ("arguments", VArr []) ]);
                         ("arguments", VArr []) ]);
                    ("computed", VBool true) ]) ]) ] ].



(** A text the strict parser rejects. *)
Definition sourceBad : string := "if (".

(** A file system with one file per scenario and a strict parser that
    knows the scenario texts. *)
Definition scenarioFiles (filename : string) : Result string :=
  if String.eqb filename "a.js" then Ok sourceA
  else if String.eqb filename "c.js" then Ok sourceC
  else if String.eqb filename "arrow.js" then Ok sourceArrow
  else if String.eqb filename "tie.js" then Ok sourceTie
  else if String.eqb filename "bad.js" then Ok sourceBad
  else Throw (IOError "ENOENT: no such file or directory").

Definition scenarioParse (content : string) : Result Value :=
  if String.eqb content sourceA then Ok astA
  else if String.eqb content sourceC then Ok astC
  else if String.eqb content sourceArrow then Ok astArrow
  else if String.eqb content sourceTie then Ok astTie
  else Throw (ParseError "Unexpected token").

(** Two stand-ins for the loose parser: one that returns an empty
    program for every text, one that fails on every text. *)
Definition scenarioLoose (content : string) : Result Value :=
  Ok (program 0 (len content) []).

Definition failingLoose (content : string) : Result Value :=
  Throw (ParseError "Unexpected token").

(** A token, by the name of its kind. *)
Definition token (kind : string) (ln col length : Z) : Token :=
  Token.mk (Some kind) (match T kind with Some id => id | None => 0 end)
           ln col length.

(* ================================================================== *)
(** ** Predicates of the specification *)

(** The kind name of a token ends in [END]. *)
Definition isEnd (t : Token) : bool :=
  match Token.key t with
  | Some k => endsWith k "END"
  | None => false
  end.

(** [t] sits at the closing position of a construct [c] of the tree
    [root], a node that has a visitor method: the end line of its
    location, and the end column moved one to the left and kept at zero
    or above.  The location is the one of [c]; where a rule anchors on
    the node rather than on the path, it is the one of [c.value || c]. *)
Definition ClosesIn (root : Value) (t : Token) : Prop :=
  exists c n l range props,
    Within c root /\
    methodNameOf c <> None /\
    (n = c \/ valueOrSelf (ANode c) = Ok n) /\
    n = VObj (Some l) range props /\
    Token.line t = line (end_ l) /\
    Token.column t = Z.max (column (end_ l) - 1) 0.

(** What every emitted token satisfies. *)
Definition Good (root : Value) (t : Token) : Prop :=
  1 <= Token.length t /\
  (isEnd t = true -> Token.length t = 1 /\ ClosesIn root t).

(** [r] is [r0] with tokens added at its end, all of them in [Q]. *)
Definition Extends (Q : Token -> Prop) (r0 r : list Token) : Prop :=
  exists new, r = (r0 ++ new)%list /\ Forall Q new.

Definition WalkOk (Q : Token -> Prop)
           (f : list Token -> Result (list Token)) : Prop :=
  forall r0 r, f r0 = Ok r -> Extends Q r0 r.

Definition MOk {A : Type} (Q : Token -> Prop) (m : M A) : Prop :=
  forall s a s', m s = Ok (a, s') -> Extends Q (res s) (res s').

Definition ContextOk (Q : Token -> Prop) (this : Context) : Prop :=
  MOk Q (this_traverse this) /\ forall name, MOk Q (this_visit this name).

Definition BodyOk (root : Value) (body : Body) : Prop :=
  forall this path traverse visit,
    Within path root ->
    methodNameOf path <> None ->
    ContextOk (Good root) this ->
    MOk (Good root) traverse ->
    (forall name, MOk (Good root) (visit name)) ->
    MOk (Good root) (body this path traverse visit).

(** The kind handed to [emit] has a name that does not end in [END]. *)
Definition notEndTok (tok : option Z) : bool :=
  match tok with
  | None => true
  | Some id =>
      match lookupId id TOKENS_REVERSE with
      | Some k => negb (endsWith k "END")
      | None => true
      end
  end.

(** The node an anchor is built on. *)
Definition anchorBase (a : Anchor) : Value :=
  match a with
  | APath v => v
  | ANode n => n
  end.

(** The order of the output: by line, then by column. *)
Definition posLe (a b : Token) : Prop :=
  Token.line a < Token.line b \/
  (Token.line a = Token.line b /\ Token.column a <= Token.column b).

Definition samePos (l c : Z) (t : Token) : bool :=
  (Token.line t =? l) && (Token.column t =? c).

(** The three function nodes of the parser's tree. *)
Inductive FunctionKind : Type :=
| FunctionDeclaration
| FunctionExpression
| ArrowFunctionExpression.

Definition functionType (k : FunctionKind) : string :=
  match k with
  | FunctionDeclaration => "FunctionDeclaration"
  | FunctionExpression => "FunctionExpression"
  | ArrowFunctionExpression => "ArrowFunctionExpression"
  end.

(** The column of the first occurrence of a keyword in a one-line
    source text. *)
Definition columnOf (keyword source : string) : option Z :=
  match index 0 keyword source with
  | Some n => Some (Z.of_nat n)
  | None => None
  end.

Definition hasToken (kind : string) (ln col length : Z) (toks : list Token) : Prop :=
  In (token kind ln col length) toks.

(** The rule of the specification for iteration over a collection, in
    its words: emit FOR_BEGIN ("for", length 3); visit the left-hand
    binding; emit an ASSIGN token at the binding's position with length
    1; visit the right-hand iterable; visit the body; emit FOR_END at
    the construct's closing position.  [l] is the location of the
    statement and [ll] the one of its left-hand side. *)
Definition iterationRule (fieldNames : string -> option (list string))
           (l ll : SourceLocation) (left right body : Value)
           (r0 : list Token) : Result (list Token) :=
  (r1 <- visitWithoutReset fieldNames left
           (r0 ++ [token "FOR_BEGIN" (line (start l)) (column (start l)) 3]) ;;
   r2 <- visitWithoutReset fieldNames right
           (r1 ++ [token "ASSIGN" (line (start ll)) (column (start ll)) 1]) ;;
   r3 <- visitWithoutReset fieldNames body r2 ;;
   Ok (r3 ++ [token "FOR_END" (line (end_ l))
                    (Z.max (column (end_ l) - 1) 0) 1])%list)%result.

(** The emissions and visits of [visitForOfStatement] on a node, in
    their order, as one chain of results; the two loops are compared
    through it. *)
Definition forOfChain (fieldNames : string -> option (list string))
           (node : Value) (r0 : list Token) : Result (list Token) :=
  (left <- getProp node "left" ;;
   right <- getProp node "right" ;;
   body <- getProp node "body" ;;
   r1 <- emit (T "FOR_BEGIN") (APath node) (Some 3) r0 ;;
   r2 <- visitWithoutReset fieldNames left r1 ;;
   r3 <- emit (T "ASSIGN") (ANode left) (Some 1) r2 ;;
   r4 <- visitWithoutReset fieldNames right r3 ;;
   r5 <- visitWithoutReset fieldNames body r4 ;;
   emitEnd (T "FOR_END") (APath node) None r5)%result.

(** [for (k in o) f()] *)
Definition forInNode : Value :=
  node1 "ForInStatement" 0 16
    [ ("left", ident "k" 5 6);
      ("right", ident "o" 10 11);
      ("body",
       node1 "ExpressionStatement" 13 16
         [ ("expression",
            node1 "CallExpression" 13 16
              [ ("callee", ident "f" 13 14); ("arguments", VArr []) ]) ]) ].

(* ================================================================== *)
(** ** Further predicates *)

(** A token carries a kind of the vocabulary: its key is the name the
    table gives its id. *)
Definition KnownKind (t : Token) : Prop :=
  exists name, Token.key t = Some name /\ T name = Some (Token.value t).

(** The error of the walker for a method that neither traversed nor
    returned [false]. *)
Definition mustTraverse : Exn :=
  WalkerError "Must either call this.traverse or return false".

(** Once the wrapper's [traversed] is set, the walker's
    [needToCallTraverse] has been cleared. *)
Definition Flag (s : VState) : Prop :=
  traversed s = true -> needToCallTraverse s = false.

Definition Cleared (s : VState) : Prop := needToCallTraverse s = false.

(** From a state in [pre], [m] does not stop with [mustTraverse], and
    when it returns, [post] holds. *)
Definition MH {A : Type} (pre : VState -> Prop) (m : M A)
           (post : A -> VState -> Prop) : Prop :=
  forall s, pre s ->
    match m s with
    | Ok (a, s') => post a s'
    | Throw e => e <> mustTraverse
    end.

Definition WalkNoMust (f : list Token -> Result (list Token)) : Prop :=
  forall r0, f r0 <> Throw mustTraverse.

Definition ContextH (this : Context) : Prop :=
  MH Flag (this_traverse this) (fun _ => Cleared) /\
  forall name, MH Flag (this_visit this name) (fun _ => Cleared).

(** A method body that returns a truthy value has cleared the walker's
    flag. *)
Definition BodyH (body : Body) : Prop :=
  forall this path traverse visit,
    ContextH this ->
    MH Flag traverse (fun _ => Flag) ->
    (forall name, MH Flag (visit name) (fun _ => Flag)) ->
    MH Flag (body this path traverse visit)
       (fun r s' => Flag s' /\ (r = true -> Cleared s')).

(** All values of a tree, the tree first. *)
Fixpoint descendants (v : Value) : list Value :=
  v :: match v with
       | VArr elems => flat_map descendants elems
       | VObj _ _ props => flat_map (fun kv => descendants (snd kv)) props
       | _ => []
       end.

(** The constructs with a token at both ends: node type, kind of the
    opening token, kind of the closing token, and the text whose length
    the opening token gets. *)
Definition blockRules : list (string * (string * (string * string))) :=
  [ ("ClassDeclaration", ("CLASS_BEGIN", ("CLASS_END", "class")));
    ("ClassExpression", ("IN_CLASS_BEGIN", ("IN_CLASS_END", "class")));
    ("WithStatement", ("WITH_BEGIN", ("WITH_END", "with")));
    ("SwitchStatement", ("SWITCH_BEGIN", ("SWITCH_END", "switch")));
    ("CatchClause", ("CATCH_BEGIN", ("CATCH_END", "catch")));
    ("WhileStatement", ("WHILE_BEGIN", ("WHILE_END", "while")));
    ("DoWhileStatement", ("DO_WHILE_BEGIN", ("DO_WHILE_END", "do")));
    ("ArrayExpression", ("ARRAY_BEGIN", ("ARRAY_END", "[")));
    ("ObjectExpression", ("OBJECT_BEGIN", ("OBJECT_END", "{")));
    ("GeneratorExpression", ("GEN_EXPR_BEGIN", ("GEN_EXPR_END", "(")));
    ("ComprehensionExpression",
     ("ARRAY_COMP_BEGIN", ("ARRAY_COMP_END", "["))) ].

(** The constructs with one token of a fixed length, anchored on the
    path: node type, kind, and the text whose length the token gets. *)
Definition pathTokenRules : list (string * (string * string)) :=
  [ ("ImportDeclaration", ("IMPORT", "import"));
    ("ImportExpression", ("IMPORT", "import"));
    ("AwaitExpression", ("AWAIT", "await"));
    ("Decorator", ("DECORATOR", "@"));
    ("ExportNamedDeclaration", ("EXPORT", "export"));
    ("ExportDefaultDeclaration", ("EXPORT", "export"));
    ("ExportAllDeclaration", ("EXPORT", "export")) ].

(** The same, anchored on the node. *)
Definition nodeTokenRules : list (string * (string * string)) :=
  [ ("ReturnStatement", ("RETURN", "return"));
    ("ThrowStatement", ("THROW", "throw"));
    ("TryStatement", ("TRY", "try"));
    ("YieldExpression", ("YIELD", "yield")) ].

(** A node of a given type: the parser puts [type] first. *)
Definition typed (ty : string) (loc : option SourceLocation)
           (range : option (Z * Z)) (ps : list (string * Value)) : Value :=
  VObj loc range (("type", VStr ty) :: ps).

(** The construct a kind name opens or closes: the name without its
    [_BEGIN] or [_END]. *)
Definition stem (suffix k : string) : string :=
  substring 0 (String.length k - String.length suffix) k.

(** One token against the stack of open constructs: a [_BEGIN] opens
    its construct, an [_END] closes the construct on top when it is its
    own, any other token leaves the stack. *)
Definition nest1 (k : option string) (stack : list string)
  : option (list string) :=
  match k with
  | None => Some stack
  | Some k =>
      if endsWith k "_BEGIN" then Some (stem "_BEGIN" k :: stack)
      else if endsWith k "_END" then
        match stack with
        | top :: rest =>
            if String.eqb top (stem "_END" k) then Some rest else None
        | [] => None
        end
      else Some stack
  end.

Fixpoint nest (stack : list string) (toks : list Token) : option (list string) :=
  match toks with
  | [] => Some stack
  | t :: rest =>
      match nest1 (Token.key t) stack with
      | Some stack' => nest stack' rest
      | None => None
      end
  end.

(** [m] adds tokens that take the stack [st] to [st']. *)
Definition MN {A : Type} (m : M A) (st st' : list string) : Prop :=
  forall s a s', m s = Ok (a, s') ->
    exists new, res s' = (res s ++ new)%list /\ nest st new = Some st'.

(** The key [emit] and [emitEnd] give a token of kind [tok]. *)
Definition keyOf (tok : option Z) : option string :=
  match tok with
  | Some id => lookupId id TOKENS_REVERSE
  | None => None
  end.

Definition ContextN (this : Context) : Prop :=
  (forall st, MN (this_traverse this) st st) /\
  (forall name st, MN (this_visit this name) st st).

Definition BodyN (body : Body) : Prop :=
  forall this path traverse visit st,
    ContextN this ->
    (forall st', MN traverse st' st') ->
    (forall name st', MN (visit name) st' st') ->
    MN (body this path traverse visit) st st.

(** [r] is [r0] with tokens added that leave every stack as it was. *)
Definition NestedFrom (r0 r : list Token) : Prop :=
  forall st, exists new, r = (r0 ++ new)%list /\ nest st new = Some st.

(** [f] adds tokens that leave every stack as it was. *)
Definition WalkNested (f : list Token -> Result (list Token)) : Prop :=
  forall r0 r, f r0 = Ok r -> NestedFrom r0 r.

(** Two loops inside a function: [function f() { for (;;) {} while (x) {} }] *)
Definition astNested : Value :=
  program 0 41
    [ node1 "FunctionDeclaration" 0 41
        [ ("id", ident "f" 9 10);
          ("expression", VBool false);
          ("generator", VBool false);
          ("async", VBool false);
          ("params", VArr []);
          ("body",
           node1 "BlockStatement" 13 41
             [ ("body",
                VArr [ node1 "ForStatement" 15 26
                         [ ("init", VNull); ("test", VNull); ("update", VNull);
                           ("body", node1 "BlockStatement" 24 26
                                      [("body", VArr [])]) ];
                       node1 "WhileStatement" 27 39
                         [ ("test", ident "x" 34 35);
                           ("body", node1 "BlockStatement" 37 39
                                      [("body", VArr [])]) ] ]) ]) ] ].

(** A call through a computed member with a literal key:
    [a['b']()] *)
Definition callComputed : Value :=
  node1 "CallExpression" 0 8
    [ ("callee",
       node1 "MemberExpression" 0 6
         [ ("object", ident "a" 0 1);
           ("property",
            node1 "Literal" 2 5 [("value", VStr "b"); ("raw", VStr "'b'")]);
           ("computed", VBool true) ]);
      ("arguments", VArr []) ].

Definition astComputed : Value :=
  program 0 8 [ node1 "ExpressionStatement" 0 8 [ ("expression", callComputed) ] ].

(** Single nodes, as the parser builds them, each at the start of a
    one-line text. *)

(** [a.b()] *)
Definition callB : Value :=
  node1 "CallExpression" 0 5
    [ ("callee",
       node1 "MemberExpression" 0 3
         [ ("object", ident "a" 0 1);
           ("property", ident "b" 2 3);
           ("computed", VBool false) ]);
      ("arguments", VArr []) ].

(** [f(x)] *)
Definition callPlain : Value :=
  node1 "CallExpression" 0 4
    [ ("callee", ident "f" 0 1); ("arguments", VArr [ ident "x" 2 3 ]) ].

(** [break;] and [continue;] *)
Definition breakNode : Value :=
  node1 "BreakStatement" 0 6 [ ("label", VNull) ].

Definition continueNode : Value :=
  node1 "ContinueStatement" 0 9 [ ("label", VNull) ].

(** [return] *)
Definition returnNode : Value :=
  node1 "ReturnStatement" 0 6 [ ("argument", VNull) ].

(** [if (x) {}] *)
Definition ifNoElse : Value :=
  node1 "IfStatement" 0 9
    [ ("test", ident "x" 4 5);
      ("consequent", node1 "BlockStatement" 7 9 [("body", VArr [])]);
      ("alternate", VNull) ].

(** [default:] *)
Definition caseDefault : Value :=
  node1 "SwitchCase" 0 8 [ ("consequent", VArr []); ("test", VNull) ].

(** [x] and [x = 1] in a declaration *)
Definition declBare : Value :=
  node1 "VariableDeclarator" 4 5 [ ("id", ident "x" 4 5); ("init", VNull) ].

Definition declInit : Value :=
  node1 "VariableDeclarator" 4 9
    [ ("id", ident "x" 4 5);
      ("init", node1 "Literal" 8 9 [("value", VNum 1); ("raw", VStr "1")]) ].

(** [x += f()] *)
Definition assignNode : Value :=
  node1 "AssignmentExpression" 0 8
    [ ("operator", VStr "+=");
      ("left", ident "x" 0 1);
      ("right",
       node1 "CallExpression" 5 8
         [ ("callee", ident "f" 5 6); ("arguments", VArr []) ]) ].

(** [x[f()]++] *)
Definition updateNode : Value :=
  node1 "UpdateExpression" 0 8
    [ ("operator", VStr "++");
      ("prefix", VBool false);
      ("argument",
       node1 "MemberExpression" 0 6
         [ ("object", ident "x" 0 1);
           ("property",
            node1 "CallExpression" 2 5
              [ ("callee", ident "f" 2 3); ("arguments", VArr []) ]);
           ("computed", VBool true) ]) ].

(** [a ? b : c] *)
Definition condNode : Value :=
  node1 "ConditionalExpression" 0 9
    [ ("test", ident "a" 0 1);
      ("consequent", ident "b" 4 5);
      ("alternate", ident "c" 8 9) ].

(** A method body keeps a property of tokens that the walker's
    callbacks keep. *)
Definition BodyInv (Q : Token -> Prop) (body : Body) : Prop :=
  forall this path traverse visit,
    ContextOk Q this ->
    MOk Q traverse ->
    (forall name, MOk Q (visit name)) ->
    MOk Q (body this path traverse visit).

(** A statement without any construct that has a rule: [x;] *)
Definition astPlain : Value :=
  program 0 2
    [ node1 "ExpressionStatement" 0 2 [ ("expression", ident "x" 0 1) ] ].

(* ================================================================== *)
(** ** The emission calls of a traversal *)

(** A call of one of the two emitters: its arguments and the token
    array it is called on. *)
Inductive Call : Type :=
| CEmit (tok : option Z) (node : Anchor) (length : option Z) (res : list Token)
| CEmitEnd (tok : option Z) (node : Anchor) (surplus : option Z)
           (res : list Token).

Definition callResult (c : Call) : Result (list Token) :=
  match c with
  | CEmit tok node length res => emit tok node length res
  | CEmitEnd tok node surplus res => emitEnd tok node surplus res
  end.

(** The token array a call is made on. *)
Definition callArray (c : Call) : list Token :=
  match c with
  | CEmit _ _ _ res => res
  | CEmitEnd _ _ _ res => res
  end.

(** The token array a computation ends with, or its exception. *)
Definition outRes {A : Type} (o : Result (A * VState)) : Result (list Token) :=
  match o with
  | Ok (_, s) => Ok (res s)
  | Throw e => Throw e
  end.

Section Trace.
(** The context of a method, and the emission calls its two callbacks
    make from a token array. *)
Variable this : Context.
Variable traverseCalls : list Token -> list Call -> Prop.
Variable visitCalls : string -> list Token -> list Call -> Prop.

(** [Trace m s cs]: run from [s], the computation [m] of a visitor
    method makes the emission calls [cs], in this order.  A
    computation that stops with an exception makes no further call. *)
Inductive Trace : forall A : Type, M A -> VState -> list Call -> Prop :=
| Trace_ret : forall (A : Type) (a : A) s, Trace A (ret a) s []
| Trace_pure : forall (A : Type) (r : Result A) s, Trace A (pure r) s []
| Trace_setTraversed : forall b s, Trace unit (setTraversed b) s []
| Trace_emit : forall tok node length s,
    Trace unit (emitM tok node length) s [CEmit tok node length (res s)]
| Trace_emitEnd : forall tok node surplus s,
    Trace unit (emitEndM tok node surplus) s [CEmitEnd tok node surplus (res s)]
| Trace_traverse : forall s cs,
    traverseCalls (res s) cs -> Trace unit (this_traverse this) s cs
| Trace_visit : forall name s cs,
    visitCalls name (res s) cs -> Trace unit (this_visit this name) s cs
| Trace_bind_ok : forall (A B : Type) (m : M A) (k : A -> M B) s a s1 cs1 cs2,
    Trace A m s cs1 -> m s = Ok (a, s1) -> Trace B (k a) s1 cs2 ->
    Trace B (bind m k) s (cs1 ++ cs2)
| Trace_bind_throw : forall (A B : Type) (m : M A) (k : A -> M B) s e cs,
    Trace A m s cs -> m s = Throw e -> Trace B (bind m k) s cs
| Trace_wrap_throw : forall (value : Body) path s e cs,
    Trace bool
          (value this path
                 (this_traverse this ;; setTraversed true)%visit
                 (fun name => this_visit this name ;; setTraversed true)%visit)
          (mkState (res s) (needToCallTraverse s) false) cs ->
    value this path
          (this_traverse this ;; setTraversed true)%visit
          (fun name => this_visit this name ;; setTraversed true)%visit
          (mkState (res s) (needToCallTraverse s) false) = Throw e ->
    Trace unit (wrapVisit value this path) s cs
| Trace_wrap_traverse : forall (value : Body) path s r s1 cs1 cs2,
    Trace bool
          (value this path
                 (this_traverse this ;; setTraversed true)%visit
                 (fun name => this_visit this name ;; setTraversed true)%visit)
          (mkState (res s) (needToCallTraverse s) false) cs1 ->
    value this path
          (this_traverse this ;; setTraversed true)%visit
          (fun name => this_visit this name ;; setTraversed true)%visit
          (mkState (res s) (needToCallTraverse s) false) = Ok (r, s1) ->
    negb (traversed s1) && negb r = true ->
    Trace unit (this_traverse this) s1 cs2 ->
    Trace unit (wrapVisit value this path) s (cs1 ++ cs2)
| Trace_wrap_done : forall (value : Body) path s r s1 cs,
    Trace bool
          (value this path
                 (this_traverse this ;; setTraversed true)%visit
                 (fun name => this_visit this name ;; setTraversed true)%visit)
          (mkState (res s) (needToCallTraverse s) false) cs ->
    value this path
          (this_traverse this ;; setTraversed true)%visit
          (fun name => this_visit this name ;; setTraversed true)%visit
          (mkState (res s) (needToCallTraverse s) false) = Ok (r, s1) ->
    negb (traversed s1) && negb r = false ->
    Trace unit (wrapVisit value this path) s cs.
End Trace.

(** The emission calls of the walker's loops, over the calls of
    visiting one value. *)
Section LoopCalls.
Variable visitOne : Value -> list Token -> Result (list Token).
Variable callsOne : Value -> list Token -> list Call -> Prop.

Fixpoint eachCalls (l : list Value) (r : list Token) (cs : list Call)
         {struct l} : Prop :=
  match l with
  | [] => cs = []
  | x :: l' =>
      exists cs1, callsOne x r cs1 /\
        match visitOne x r with
        | Ok r' => exists cs2, eachCalls l' r' cs2 /\ cs = (cs1 ++ cs2)%list
        | Throw _ => cs = cs1
        end
  end.

Fixpoint propCalls (name : string) (ps : list (string * Value)) {struct ps}
  : list Token -> list Call -> Prop :=
  match ps with
  | [] => fun _ cs => cs = []
  | kv :: ps' =>
      if String.eqb (fst kv) name then callsOne (snd kv) else propCalls name ps'
  end.

Fixpoint fieldsCalls (props : list (string * Value)) (ns : list string)
         (r : list Token) (cs : list Call) {struct ns} : Prop :=
  match ns with
  | [] => cs = []
  | n :: ns' =>
      exists cs1, propCalls n props r cs1 /\
        match visitProp visitOne n props r with
        | Ok r' => exists cs2, fieldsCalls props ns' r' cs2 /\ cs = (cs1 ++ cs2)%list
        | Throw _ => cs = cs1
        end
  end.

Fixpoint keysCalls (ps : list (string * Value)) (r : list Token)
         (cs : list Call) {struct ps} : Prop :=
  match ps with
  | [] => cs = []
  | kv :: ps' =>
      exists cs1, callsOne (snd kv) r cs1 /\
        match visitOne (snd kv) r with
        | Ok r' => exists cs2, keysCalls ps' r' cs2 /\ cs = (cs1 ++ cs2)%list
        | Throw _ => cs = cs1
        end
  end.
End LoopCalls.

Section WalkerCalls.
Variable fieldNames : string -> option (list string).

Definition childrenCalls
           (visitOne : Value -> list Token -> Result (list Token))
           (callsOne : Value -> list Token -> list Call -> Prop)
           (ty : option string) (props : list (string * Value))
           (r0 : list Token) (cs : list Call) : Prop :=
  match
    match ty with
    | Some ty => fieldNames ty
    | None => None
    end
  with
  | Some names => fieldsCalls visitOne callsOne props names r0 cs
  | None =>
      if hasProp "type" props then cs = []
      else keysCalls visitOne callsOne props r0 cs
  end.

(** [calls value r0 cs]: visiting [value] from the token array [r0]
    makes the emission calls [cs], in this order. *)
Fixpoint calls (value : Value) {struct value}
  : list Token -> list Call -> Prop :=
  match value with
  | VArr elems => eachCalls (visitWithoutReset fieldNames) calls elems
  | VObj _ _ props =>
      let children :=
        childrenCalls (visitWithoutReset fieldNames) calls (typeOf value) props in
      match methodNameOf value with
      | Some methodName =>
          fun r0 cs =>
            match method methodName traverser with
            | Some f =>
                Trace
                  (mkContext
                     (contextCall
                        (visitChildrenWith fieldNames
                           (visitWithoutReset fieldNames) (typeOf value) props))
                     (fun name =>
                        contextCall
                          (visitProp (visitWithoutReset fieldNames) name props)))
                  children
                  (fun name => propCalls calls name props)
                  unit
                  (f (mkContext
                        (contextCall
                           (visitChildrenWith fieldNames
                              (visitWithoutReset fieldNames) (typeOf value) props))
                        (fun name =>
                           contextCall
                             (visitProp (visitWithoutReset fieldNames) name props)))
                     value)
                  (mkState r0 true false) cs
            | None => cs = []
            end
      | None => children
      end
  | _ => fun _ cs => cs = []
  end.
End WalkerCalls.

(** A call that went through and pushed the token [t]. *)
Definition pushed (c : Call) (t : Token) : Prop :=
  callResult c = Ok (callArray c ++ [t])%list.

(** What a list of emission calls says about the outcome [o] of the
    run that made them from the token array [r0]: the exception of a
    call that fails is the outcome of the run, and a run that returns
    has added to [r0] the tokens its calls pushed, one per call and in
    the order of the calls. *)
Definition Facts (r0 : list Token) (cs : list Call)
           (o : Result (list Token)) : Prop :=
  (forall c e, In c cs -> callResult c = Throw e -> o = Throw e) /\
  (forall r, o = Ok r ->
             exists ts, r = (r0 ++ ts)%list /\ Forall2 pushed cs ts).

Definition Traced (this : Context)
           (traverseCalls : list Token -> list Call -> Prop)
           (visitCalls : string -> list Token -> list Call -> Prop)
           {A : Type} (m : M A) : Prop :=
  forall s, exists cs, Trace this traverseCalls visitCalls A m s cs.

(** Every computation a method body builds from traced callbacks is
    traced. *)
Definition BodyTraced (body : Body) : Prop :=
  forall this traverseCalls visitCalls path traverse visit,
    Traced this traverseCalls visitCalls (this_traverse this) ->
    (forall name, Traced this traverseCalls visitCalls (this_visit this name)) ->
    Traced this traverseCalls visitCalls traverse ->
    (forall name, Traced this traverseCalls visitCalls (visit name)) ->
    Traced this traverseCalls visitCalls (body this path traverse visit).

(* ================================================================== *)
(** * Theorems *)

(** ** Basic facts *)

Lemma Within_trans (a b c : Value) : Within a b -> Within b c -> Within a c.
Proof.
  intros Hab Hbc. induction Hbc.
  - exact Hab.
  - eapply Within_elem; eauto.
  - eapply Within_prop; eauto.
Qed.

Lemma Extends_refl (Q : Token -> Prop) (r : list Token) : Extends Q r r.
Proof. exists []. split; [now rewrite app_nil_r | constructor]. Qed.

Lemma Extends_trans (Q : Token -> Prop) (a b c : list Token) :
  Extends Q a b -> Extends Q b c -> Extends Q a c.
Proof.
  intros (n1 & -> & H1) (n2 & -> & H2). exists (n1 ++ n2)%list.
  split; [now rewrite app_assoc | now apply Forall_app].
Qed.

Lemma Extends_one (Q : Token -> Prop) (r : list Token) (t : Token) :
  Q t -> Extends Q r (r ++ [t])%list.
Proof. intros H. exists [t]. split; [reflexivity | now constructor]. Qed.

(** ** The emitters *)

Lemma emit_inv tok a length r0 r :
  emit tok a length r0 = Ok r ->
  exists id n v l,
    tok = Some id /\ length = Some n /\ 0 < n /\ anchorNonNull a = true /\
    valueOrSelf a = Ok v /\ locOf v = Ok l /\
    r = (r0 ++ [Token.mk (lookupId id TOKENS_REVERSE) id
                         (line (start l)) (column (start l)) n])%list.
Proof.
  unfold emit, rbind. destruct tok as [id|]; [|discriminate].
  destruct (anchorNonNull a) eqn:Ha; cbn [negb]; [|discriminate].
  destruct length as [n|]; [|discriminate].
  destruct (0 <? n) eqn:Hn; cbn [negb]; [|discriminate].
  destruct (valueOrSelf a) as [v|] eqn:Hv; [|discriminate].
  destruct (locOf v) as [l|] eqn:Hl; [|discriminate].
  intros [= <-]. exists id, n, v, l. apply Z.ltb_lt in Hn. auto 10.
Qed.

Lemma emitEnd_inv tok a surplus r0 r :
  emitEnd tok a surplus r0 = Ok r ->
  exists id k v l,
    tok = Some id /\ lookupId id TOKENS_REVERSE = Some k /\
    endsWith k "END" = true /\
    valueOrSelf a = Ok v /\ locOf v = Ok l /\
    r = (r0 ++ [Token.mk (Some k) id (line (end_ l))
                         (Z.max (column (end_ l) - 1) 0) 1])%list.
Proof.
  unfold emitEnd, rbind. destruct tok as [id|]; [|discriminate].
  destruct (valueOrSelf a) as [v|] eqn:Hv; [|discriminate].
  destruct (is_nullish v); [discriminate|].
  destruct (lookupId id TOKENS_REVERSE) as [k|] eqn:Hk; [|discriminate].
  destruct (endsWith k "END") eqn:He; cbn [negb]; [|discriminate].
  destruct (locOf v) as [l|] eqn:Hl; [|discriminate].
  intros [= <-]. exists id, k, v, l. auto 10.
Qed.

Lemma locOf_inv v l :
  locOf v = Ok l -> exists range props, v = VObj (Some l) range props.
Proof.
  unfold locOf, getLoc. destruct v; simpl; try discriminate.
  destruct loc; [|discriminate]. intros [= ->]. eauto.
Qed.

Lemma valueOrSelf_anchor a v l :
  valueOrSelf a = Ok v -> locOf v = Ok l ->
  v = anchorBase a \/ valueOrSelf (ANode (anchorBase a)) = Ok v.
Proof.
  destruct a as [p|n]; cbn [anchorBase].
  - cbn [valueOrSelf]. intros [= <-].
    destruct (truthy p); [now left | discriminate].
  - intros Hv _. now right.
Qed.

Lemma emit_good root tok a length :
  notEndTok tok = true -> WalkOk (Good root) (emit tok a length).
Proof.
  intros Hne r0 r H.
  apply emit_inv in H as (id & n & v & l & -> & -> & Hn & _ & _ & _ & ->).
  apply Extends_one. split.
  - cbn [Token.length]. lia.
  - intros He. unfold isEnd in He. cbn [Token.key] in He.
    unfold notEndTok in Hne.
    destruct (lookupId id TOKENS_REVERSE) as [k|]; [|discriminate].
    rewrite He in Hne. discriminate.
Qed.

Lemma emitEnd_good root tok a surplus :
  Within (anchorBase a) root ->
  methodNameOf (anchorBase a) <> None ->
  WalkOk (Good root) (emitEnd tok a surplus).
Proof.
  intros Hw Hm r0 r H.
  apply emitEnd_inv in H as (id & k & v & l & -> & Hk & He & Hv & Hl & ->).
  apply Extends_one. split; [cbn [Token.length]; lia|].
  intros _. split; [reflexivity|].
  destruct (locOf_inv _ _ Hl) as (range & props & Hobj).
  exists (anchorBase a), v, l, range, props.
  repeat split; auto. eapply valueOrSelf_anchor; eauto.
Qed.

(** ** Computations of the visitor methods *)

Section MOkRules.
Variable Q : Token -> Prop.

Lemma MOk_ret {A : Type} (a : A) : MOk Q (ret a).
Proof. intros s a' s' [= _ <-]. apply Extends_refl. Qed.

Lemma MOk_bind {A B : Type} (m : M A) (k : A -> M B) :
  MOk Q m -> (forall a, MOk Q (k a)) -> MOk Q (bind m k).
Proof.
  intros Hm Hk s b s'. unfold bind.
  destruct (m s) as [[a s1]|] eqn:E; [|discriminate].
  intros H. eapply Extends_trans; [eapply Hm | eapply Hk]; eauto.
Qed.

Lemma MOk_pure {A : Type} (r : Result A) : MOk Q (pure r).
Proof.
  intros s a s'. unfold pure. destruct r; [|discriminate].
  intros [= _ <-]. apply Extends_refl.
Qed.

Lemma MOk_setTraversed (b : bool) : MOk Q (setTraversed b).
Proof. intros s a s' [= _ <-]. apply Extends_refl. Qed.

Lemma MOk_onRes (f : list Token -> Result (list Token)) :
  WalkOk Q f -> MOk Q (onRes f).
Proof.
  intros Hf s a s'. unfold onRes.
  destruct (f (res s)) as [r|] eqn:E; [|discriminate].
  intros [= _ <-]. cbn. now apply Hf.
Qed.

Lemma MOk_contextCall (f : list Token -> Result (list Token)) :
  WalkOk Q f -> MOk Q (contextCall f).
Proof.
  intros Hf s a s'. unfold contextCall.
  destruct (f (res s)) as [r|] eqn:E; [|discriminate].
  intros [= _ <-]. cbn. now apply Hf.
Qed.

Lemma MOk_wrapVisit (value : Body) (this : Context) (path : Value) :
  ContextOk Q this ->
  (forall traverse visit,
      MOk Q traverse -> (forall name, MOk Q (visit name)) ->
      MOk Q (value this path traverse visit)) ->
  MOk Q (wrapVisit value this path).
Proof.
  intros [Ht Hv] Hbody s a s'. unfold wrapVisit.
  match goal with
  | |- context [value this path ?t ?v ?s0] =>
      destruct (value this path t v s0) as [[r s1]|] eqn:E; [|discriminate];
      assert (H1 : Extends Q (res s0) (res s1))
  end.
  { eapply Hbody; [| |exact E].
    - apply MOk_bind; [exact Ht | intros; apply MOk_setTraversed].
    - intros name. apply MOk_bind; [apply Hv | intros; apply MOk_setTraversed]. }
  cbn in H1.
  destruct (negb (traversed s1) && negb r).
  - destruct (this_traverse this s1) as [[u s2]|] eqn:E2; [|discriminate].
    intros [= _ <-]. cbn. eapply Extends_trans; [exact H1 | eapply Ht; eauto].
  - cbn. intros [= _ <-]. exact H1.
Qed.
End MOkRules.

Lemma MOk_emitM root tok a length :
  notEndTok tok = true -> MOk (Good root) (emitM tok a length).
Proof. intros H. apply MOk_onRes. now apply emit_good. Qed.

Lemma MOk_emitEndM root tok a surplus :
  Within (anchorBase a) root ->
  methodNameOf (anchorBase a) <> None ->
  MOk (Good root) (emitEndM tok a surplus).
Proof. intros Hw Hm. apply MOk_onRes. now apply emitEnd_good. Qed.

(** One step of a method body. *)
Ltac body_step :=
  lazymatch goal with
  | |- MOk _ (bind _ _) => apply MOk_bind; [|intros ?]
  | |- MOk _ (ret _) => apply MOk_ret
  | |- MOk _ (pure _) => apply MOk_pure
  | |- MOk _ (emitM _ _ _) => apply MOk_emitM; reflexivity
  | |- MOk _ (emitEndM _ _ _) => apply MOk_emitEndM; assumption
  | |- MOk _ (if ?c then _ else _) => destruct c
  | |- MOk _ (wrapVisit _ _ _) => apply MOk_wrapVisit; [assumption | intros ? ? ? ?]
  | |- MOk _ (visitForOfStatement _ _ _ _) => unfold visitForOfStatement
  | |- MOk _ _ => solve [assumption | auto]
  end.

Ltac body_ok body :=
  intros this path traverse visit Hw Hm Hthis Htraverse Hvisit;
  unfold body; repeat body_step.

Lemma visitorMethods_ok root :
  Forall (fun kv => BodyOk root (snd kv)) visitorMethods.
Proof.
  unfold visitorMethods.
  repeat lazymatch goal with
  | |- Forall _ [] => constructor
  | |- Forall _ ((_, ?body) :: _) =>
      constructor; [cbn [snd]; body_ok body|]
  end.
Qed.

(** ** The traverser and the walker *)

Lemma makeTraverser_wraps_all :
  traverser = map (fun kv => (fst kv, wrapVisit (snd kv))) visitorMethods.
Proof. reflexivity. Qed.

Lemma method_map_wrap name f (l : list (string * Body)) :
  method name (map (fun kv => (fst kv, wrapVisit (snd kv))) l) = Some f ->
  exists body, In (name, body) l /\ f = wrapVisit body.
Proof.
  induction l as [|[k b] l IH]; cbn [map method fst snd]; [discriminate|].
  destruct (String.eqb k name) eqn:E.
  - apply String.eqb_eq in E. subst k. intros [= <-]. exists b. split; [now left | reflexivity].
  - intros H. destruct (IH H) as (body & Hin & ->). exists body. split; [now right | reflexivity].
Qed.

Lemma invokeVisitorMethod_ok root methodName this path :
  Within path root ->
  methodNameOf path <> None ->
  ContextOk (Good root) this ->
  WalkOk (Good root) (invokeVisitorMethod methodName this path).
Proof.
  intros Hw Hmn Hthis r0 r. unfold invokeVisitorMethod.
  destruct (method methodName traverser) as [f|] eqn:Hm; [|discriminate].
  rewrite makeTraverser_wraps_all in Hm.
  apply method_map_wrap in Hm as (body & Hin & ->).
  pose proof (visitorMethods_ok root) as Hall.
  rewrite Forall_forall in Hall. specialize (Hall _ Hin). cbn [snd] in Hall.
  destruct (wrapVisit body this path (mkState r0 true false)) as [[u s]|] eqn:E;
    [|discriminate].
  destruct (needToCallTraverse s); [discriminate|]. intros [= <-].
  change r0 with (res (mkState r0 true false)).
  eapply MOk_wrapVisit; [exact Hthis | | exact E].
  intros traverse visit Ht Hv. now apply Hall.
Qed.

Section LoopRules.
Variable Q : Token -> Prop.
Variable visitOne : Value -> list Token -> Result (list Token).

Lemma eachElem_ok (l : list Value) :
  Forall (fun x => WalkOk Q (visitOne x)) l -> WalkOk Q (eachElem visitOne l).
Proof.
  induction 1 as [|x l Hx _ IH]; intros r0 r; cbn [eachElem].
  - intros [= <-]. apply Extends_refl.
  - destruct (visitOne x r0) as [r1|] eqn:E; [|discriminate].
    intros H. eapply Extends_trans; [eapply Hx | eapply IH]; eauto.
Qed.

Lemma visitProp_ok (name : string) (ps : list (string * Value)) :
  Forall (fun kv => WalkOk Q (visitOne (snd kv))) ps ->
  WalkOk Q (visitProp visitOne name ps).
Proof.
  induction 1 as [|kv ps Hkv _ IH]; cbn [visitProp].
  - intros r0 r [= <-]. apply Extends_refl.
  - destruct (String.eqb (fst kv) name); assumption.
Qed.

Lemma visitFields_ok (ps : list (string * Value)) (ns : list string) :
  Forall (fun kv => WalkOk Q (visitOne (snd kv))) ps ->
  WalkOk Q (visitFields visitOne ps ns).
Proof.
  intros Hps. induction ns as [|n ns IH]; intros r0 r; cbn [visitFields].
  - intros [= <-]. apply Extends_refl.
  - destruct (visitProp visitOne n ps r0) as [r1|] eqn:E; [|discriminate].
    intros H. eapply Extends_trans; [eapply visitProp_ok | eapply IH]; eauto.
Qed.

Lemma visitKeys_ok (ps : list (string * Value)) :
  Forall (fun kv => WalkOk Q (visitOne (snd kv))) ps ->
  WalkOk Q (visitKeys visitOne ps).
Proof.
  induction 1 as [|kv ps Hkv _ IH]; intros r0 r; cbn [visitKeys].
  - intros [= <-]. apply Extends_refl.
  - destruct (visitOne (snd kv) r0) as [r1|] eqn:E; [|discriminate].
    intros H. eapply Extends_trans; [eapply Hkv | eapply IH]; eauto.
Qed.

Lemma visitChildrenWith_ok fieldNames ty (ps : list (string * Value)) :
  Forall (fun kv => WalkOk Q (visitOne (snd kv))) ps ->
  WalkOk Q (visitChildrenWith fieldNames visitOne ty ps).
Proof.
  intros Hps. unfold visitChildrenWith.
  destruct (match ty with Some t => fieldNames t | None => None end).
  - now apply visitFields_ok.
  - destruct (hasProp "type" ps); [intros r0 r; discriminate|].
    now apply visitKeys_ok.
Qed.
End LoopRules.

Lemma visitWithoutReset_obj fieldNames loc range props res0 :
  visitWithoutReset fieldNames (VObj loc range props) res0 =
  match methodNameOf (VObj loc range props) with
  | Some methodName =>
      invokeVisitorMethod methodName
        (mkContext
           (contextCall (visitChildren fieldNames (VObj loc range props)))
           (fun name =>
              contextCall (visitProp (visitWithoutReset fieldNames) name props)))
        (VObj loc range props) res0
  | None => visitChildren fieldNames (VObj loc range props) res0
  end.
Proof. reflexivity. Qed.

Lemma visitWithoutReset_ok fieldNames root (v : Value) :
  Within v root -> WalkOk (Good root) (visitWithoutReset fieldNames v).
Proof.
  induction v as [ | | b | n | s | elems IH | loc range props IH ]
    using Value_nested_ind; intros Hw;
    try (intros r0 r [= <-]; apply Extends_refl).
  - cbn [visitWithoutReset]. apply eachElem_ok.
    rewrite Forall_forall in IH |- *. intros x Hx. apply IH; [exact Hx|].
    eapply Within_trans; [|exact Hw]. eapply Within_elem; [exact Hx | constructor].
  - assert (Hps : Forall (fun kv => WalkOk (Good root)
                                      (visitWithoutReset fieldNames (snd kv))) props).
    { rewrite Forall_forall in IH |- *. intros [k x] Hx. apply IH; [exact Hx|].
      eapply Within_trans; [|exact Hw].
      eapply Within_prop; [exact Hx | constructor]. }
    intros r0 r. rewrite visitWithoutReset_obj.
    destruct (methodNameOf (VObj loc range props)) as [m|] eqn:Hm.
    + apply invokeVisitorMethod_ok;
        [exact Hw | rewrite Hm; discriminate |]. split; cbn.
      * apply MOk_contextCall. now apply visitChildrenWith_ok.
      * intros name. apply MOk_contextCall. now apply visitProp_ok.
    + cbn [visitChildren]. now apply visitChildrenWith_ok.
Qed.

Lemma ASTToTokens_good fieldNames ast out :
  ASTToTokens fieldNames ast = Ok out -> Forall (Good ast) out.
Proof.
  intros H. apply (visitWithoutReset_ok fieldNames ast ast (Within_here ast)) in H.
  destruct H as (new & -> & Hnew). exact Hnew.
Qed.

(** ** The sort *)

Section SortFacts.
Variable compareFn : Token -> Token -> Z.

Lemma insert_perm x l : Permutation (x :: l) (insert compareFn x l).
Proof.
  induction l as [|y l IH]; cbn [insert]; [reflexivity|].
  destruct (0 <? compareFn x y); [|reflexivity].
  rewrite perm_swap. now constructor.
Qed.

Lemma sort_perm l : Permutation l (sort compareFn l).
Proof.
  induction l as [|x l IH]; cbn; [constructor|].
  etransitivity; [|apply insert_perm]. now constructor.
Qed.

Lemma sort_In l t : In t (sort compareFn l) <-> In t l.
Proof.
  split; apply Permutation_in; [symmetry|]; apply sort_perm.
Qed.
End SortFacts.

Lemma byPosition_le a b : (0 <? byPosition a b) = false <-> posLe a b.
Proof.
  unfold byPosition, posLe. rewrite Z.ltb_ge.
  destruct (Token.line a - Token.line b =? 0) eqn:E.
  - apply Z.eqb_eq in E. lia.
  - apply Z.eqb_neq in E. lia.
Qed.

Lemma byPosition_gt a b : (0 <? byPosition a b) = true -> posLe b a.
Proof.
  unfold byPosition, posLe. rewrite Z.ltb_lt.
  destruct (Token.line a - Token.line b =? 0) eqn:E.
  - apply Z.eqb_eq in E. lia.
  - apply Z.eqb_neq in E. lia.
Qed.

Lemma byPosition_gt_samePos a b l c :
  (0 <? byPosition a b) = true -> samePos l c a = true -> samePos l c b = false.
Proof.
  unfold byPosition, samePos. rewrite Z.ltb_lt, andb_true_iff, !Z.eqb_eq.
  intros H [Hl Hc].
  destruct (Token.line b =? l) eqn:E1; [|reflexivity].
  apply Z.eqb_eq in E1. cbn [andb]. apply Z.eqb_neq. intros E2.
  replace (Token.line a - Token.line b) with 0 in H by lia.
  cbn in H. lia.
Qed.

Lemma posLe_trans a b c : posLe a b -> posLe b c -> posLe a c.
Proof. unfold posLe. lia. Qed.

Lemma insert_sorted x l :
  Sorted posLe l -> Sorted posLe (insert byPosition x l).
Proof.
  induction 1 as [|y l Hs IH Hhd]; cbn [insert].
  - repeat constructor.
  - destruct (0 <? byPosition x y) eqn:E.
    + constructor; [exact IH|].
      apply byPosition_gt in E.
      destruct l as [|z l]; cbn [insert].
      * now constructor.
      * destruct (0 <? byPosition x z); constructor; [|exact E].
        now inversion Hhd.
    + apply byPosition_le in E. constructor; [now constructor | now constructor].
Qed.

Lemma sort_sorted l : Sorted posLe (sort byPosition l).
Proof.
  induction l as [|x l IH]; cbn; [constructor | now apply insert_sorted].
Qed.

Lemma sort_strongly_sorted l : StronglySorted posLe (sort byPosition l).
Proof.
  apply Sorted_StronglySorted; [|apply sort_sorted].
  intros a b c. apply posLe_trans.
Qed.

Lemma insert_stable l c x s :
  filter (samePos l c) (insert byPosition x s) =
  filter (samePos l c) (x :: s).
Proof.
  induction s as [|y s IH]; cbn [insert]; [reflexivity|].
  destruct (0 <? byPosition x y) eqn:E; [|reflexivity].
  cbn [filter] in *. rewrite IH.
  destruct (samePos l c x) eqn:Ex; [|reflexivity].
  now rewrite (byPosition_gt_samePos _ _ _ _ E Ex).
Qed.

Lemma sort_stable l c toks :
  filter (samePos l c) (sort byPosition toks) = filter (samePos l c) toks.
Proof.
  induction toks as [|x toks IH]; cbn [sort fold_right]; [reflexivity|].
  fold (sort byPosition toks). rewrite insert_stable. cbn [filter].
  now rewrite IH.
Qed.

(** ** The pipeline *)

Lemma doParse_inv readFileSync strictParse looseParse fieldNames filename log out :
  doParse readFileSync strictParse looseParse fieldNames filename = (log, Ok out) ->
  exists content ast emitted,
    readFileSync filename = Ok content /\
    parseToAst strictParse looseParse content = (log, Ok ast) /\
    ASTToTokens fieldNames ast = Ok emitted /\
    out = sort byPosition emitted.
Proof.
  unfold doParse.
  destruct (readFileSync filename) as [content|] eqn:Hrf; [|discriminate].
  destruct (parseToAst strictParse looseParse content) as [log' [ast|]] eqn:Hp;
    cbn [rbind]; [|discriminate].
  destruct (ASTToTokens fieldNames ast) as [emitted|] eqn:Hem;
    cbn [rbind]; [|discriminate].
  intros [= <- <-]. exists content, ast, emitted. repeat split; assumption.
Qed.

(* ================================================================== *)
(** * The claims *)

(** C8.  For every input file, every token in the output has length
    greater than or equal to 1: whatever the file system, the parsers
    and the walker's type table are, the tokens [doParse] returns all
    have a length of at least 1. *)
Theorem C8_length_at_least_one :
  forall readFileSync strictParse looseParse fieldNames filename log out,
    doParse readFileSync strictParse looseParse fieldNames filename = (log, Ok out) ->
    Forall (fun t => 1 <= Token.length t) out.
Proof.
  intros rf sp lp F filename log out H.
  apply doParse_inv in H as (content & ast & emitted & _ & _ & Hem & ->).
  apply ASTToTokens_good in Hem. rewrite Forall_forall in Hem |- *.
  intros t Ht. apply sort_In in Ht. now apply Hem.
Qed.

Lemma C8_length_at_least_one_witness :
  doParse scenarioFiles scenarioParse scenarioLoose estreeFields "a.js"
  = ([], Ok [ token "FOR_BEGIN" 1 0 3; token "ASSIGN" 1 9 1;
              token "ASSIGN" 1 23 2; token "FOR_END" 1 29 1 ]) /\
  Forall (fun t => 1 <= Token.length t)
         [ token "FOR_BEGIN" 1 0 3; token "ASSIGN" 1 9 1;
           token "ASSIGN" 1 23 2; token "FOR_END" 1 29 1 ].
Proof.
  split; [reflexivity|].
  apply (C8_length_at_least_one scenarioFiles scenarioParse scenarioLoose
           estreeFields "a.js" []).
  reflexivity.
Defined.

(** C3.  Every token of the output whose kind name ends in [END] has
    length exactly 1 and sits at the closing position of a construct of
    the parsed tree: the line of its end, and the column of its end
    minus one, kept at zero or above. *)
Theorem C3_end_tokens_close_their_construct :
  forall readFileSync strictParse looseParse fieldNames filename log out,
    doParse readFileSync strictParse looseParse fieldNames filename = (log, Ok out) ->
    exists content ast,
      readFileSync filename = Ok content /\
      parseToAst strictParse looseParse content = (log, Ok ast) /\
      forall t, In t out -> isEnd t = true ->
                Token.length t = 1 /\ ClosesIn ast t.
Proof.
  intros rf sp lp F filename log out H.
  apply doParse_inv in H as (content & ast & emitted & Hrf & Hp & Hem & ->).
  exists content, ast. repeat split; try assumption;
    apply sort_In in H; apply ASTToTokens_good in Hem;
    rewrite Forall_forall in Hem; destruct (Hem t H) as [_ Hend];
    now destruct (Hend H0).
Qed.

Lemma C3_end_tokens_close_their_construct_witness :
  doParse scenarioFiles scenarioParse scenarioLoose estreeFields "c.js"
  = ([], Ok [ token "IF_BEGIN" 1 0 2; token "ELSE" 1 15 1;
              token "IF_END" 1 16 1 ]) /\
  exists content ast,
    scenarioFiles "c.js" = Ok content /\
    parseToAst scenarioParse scenarioLoose content = ([], Ok ast) /\
    forall t, In t [ token "IF_BEGIN" 1 0 2; token "ELSE" 1 15 1;
                     token "IF_END" 1 16 1 ] ->
              isEnd t = true -> Token.length t = 1 /\ ClosesIn ast t.
Proof.
  split; [reflexivity|].
  apply (C3_end_tokens_close_their_construct scenarioFiles scenarioParse
           scenarioLoose estreeFields "c.js" []).
  reflexivity.
Defined.

(** C4.  For every input file the output is non-decreasing in
    (line, column), and it is the emitted sequence stably sorted: it has
    the emitted tokens, and the tokens at any one position come in the
    order in which they were emitted. *)
Theorem C4_output_sorted_and_stable :
  forall readFileSync strictParse looseParse fieldNames filename log out,
    doParse readFileSync strictParse looseParse fieldNames filename = (log, Ok out) ->
    StronglySorted posLe out /\
    exists content ast emitted,
      readFileSync filename = Ok content /\
      parseToAst strictParse looseParse content = (log, Ok ast) /\
      ASTToTokens fieldNames ast = Ok emitted /\
      Permutation emitted out /\
      forall l c, filter (samePos l c) out = filter (samePos l c) emitted.
Proof.
  intros rf sp lp F filename log out H.
  apply doParse_inv in H as (content & ast & emitted & Hrf & Hp & Hem & ->).
  split; [apply sort_strongly_sorted|].
  exists content, ast, emitted. repeat split; try assumption.
  - apply sort_perm.
  - intros l c. apply sort_stable.
Qed.

Lemma C4_output_sorted_and_stable_witness :
  doParse scenarioFiles scenarioParse scenarioLoose estreeFields "tie.js"
  = ([], Ok [ token "ASSIGN" 1 0 2; token "APPLY" 1 2 3; token "APPLY" 1 2 1 ]) /\
  ASTToTokens estreeFields astTie
  = Ok [ token "APPLY" 1 2 3; token "APPLY" 1 2 1; token "ASSIGN" 1 0 2 ] /\
  StronglySorted posLe
    [ token "ASSIGN" 1 0 2; token "APPLY" 1 2 3; token "APPLY" 1 2 1 ] /\
  exists content ast emitted,
    scenarioFiles "tie.js" = Ok content /\
    parseToAst scenarioParse scenarioLoose content = ([], Ok ast) /\
    ASTToTokens estreeFields ast = Ok emitted /\
    Permutation emitted
      [ token "ASSIGN" 1 0 2; token "APPLY" 1 2 3; token "APPLY" 1 2 1 ] /\
    forall l c,
      filter (samePos l c)
        [ token "ASSIGN" 1 0 2; token "APPLY" 1 2 3; token "APPLY" 1 2 1 ]
      = filter (samePos l c) emitted.
Proof.
  split; [reflexivity|]. split; [reflexivity|].
  apply (C4_output_sorted_and_stable scenarioFiles scenarioParse
           scenarioLoose estreeFields "tie.js" []).
  reflexivity.
Defined.

(** ** Equations of single rules *)

Lemma visitProp_lookup fieldNames name ps :
  visitProp (visitWithoutReset fieldNames) name ps
  = visitWithoutReset fieldNames (lookup name ps).
Proof.
  induction ps as [|[k v] ps IH]; cbn [visitProp lookup fst snd]; [reflexivity|].
  destruct (String.eqb k name); [reflexivity | exact IH].
Qed.

(** Case analysis on the innermost result a goal is waiting for. *)
Ltac split_result :=
  match goal with
  | |- context [match ?x with Ok _ => _ | Throw _ => _ end] =>
      lazymatch x with
      | context [match _ with _ => _ end] => fail
      | _ => destruct x
      end
  end.

Ltac run_rule :=
  unfold wrapVisit, bind, emitM, emitEndM, onRes, setTraversed,
    contextCall, ret, rbind, pure;
  cbn -[emit emitEnd visitWithoutReset T];
  rewrite ?visitProp_lookup;
  repeat (split_result; cbn -[emit emitEnd visitWithoutReset T];
          try reflexivity).

Lemma emit_path_props tok loc range ps ps' length r :
  emit tok (APath (VObj loc range ps)) length r
  = emit tok (APath (VObj loc range ps')) length r.
Proof. destruct tok, length, loc; reflexivity. Qed.

Lemma forOf_chain fieldNames loc range ps r0 :
  let node := VObj loc range (("type", VStr "ForOfStatement") :: ps) in
  visitWithoutReset fieldNames node r0 = forOfChain fieldNames node r0.
Proof.
  intros node. subst node. rewrite visitWithoutReset_obj.
  change (methodNameOf _) with (Some "visitForOfStatement").
  unfold invokeVisitorMethod.
  change (method "visitForOfStatement" traverser)
    with (Some (wrapVisit visitForOfStatement)).
  unfold visitForOfStatement, forOfChain. run_rule.
Qed.

Lemma forIn_chain fieldNames loc range ps r0 :
  let node := VObj loc range (("type", VStr "ForInStatement") :: ps) in
  visitWithoutReset fieldNames node r0 = forOfChain fieldNames node r0.
Proof.
  intros node. subst node. rewrite visitWithoutReset_obj.
  change (methodNameOf _) with (Some "visitForInStatement").
  unfold invokeVisitorMethod.
  change (method "visitForInStatement" traverser)
    with (Some (wrapVisit visitForInStatement)).
  unfold visitForInStatement, visitForOfStatement, forOfChain. run_rule.
Qed.

Lemma forOfChain_type fieldNames loc range ty ty' ps r0 :
  forOfChain fieldNames (VObj loc range (("type", VStr ty) :: ps)) r0
  = forOfChain fieldNames (VObj loc range (("type", VStr ty') :: ps)) r0.
Proof.
  unfold forOfChain, rbind. cbn -[emit emitEnd visitWithoutReset T].
  rewrite (emit_path_props _ _ _ _ (("type", VStr ty') :: ps)).
  repeat (split_result; try reflexivity).
Qed.

Lemma forIn_as_forOf fieldNames loc range ps r0 :
  visitWithoutReset fieldNames
    (VObj loc range (("type", VStr "ForInStatement") :: ps)) r0
  = visitWithoutReset fieldNames
      (VObj loc range (("type", VStr "ForOfStatement") :: ps)) r0.
Proof.
  rewrite (forIn_chain fieldNames), (forOf_chain fieldNames).
  apply forOfChain_type.
Qed.

Lemma forOf_tokens fieldNames l range ps ll lr lps r0 :
  lookup "left" ps = VObj (Some ll) lr lps ->
  truthy (lookup "value" lps) = false ->
  visitWithoutReset fieldNames
    (VObj (Some l) range (("type", VStr "ForOfStatement") :: ps)) r0
  = iterationRule fieldNames l ll
      (lookup "left" ps) (lookup "right" ps) (lookup "body" ps) r0.
Proof.
  intros Hleft Hvalue. rewrite (forOf_chain fieldNames).
  assert (Hassign : forall r,
             emit (T "ASSIGN") (ANode (lookup "left" ps)) (Some 1) r
             = Ok (r ++ [token "ASSIGN" (line (start ll)) (column (start ll)) 1])%list).
  { intros r. rewrite Hleft. unfold emit, rbind. cbn. now rewrite Hvalue. }
  unfold forOfChain, iterationRule, rbind.
  cbn -[emit emitEnd visitWithoutReset T token].
  change (emit (T "FOR_BEGIN") _ (Some 3) r0)
    with (Ok (r0 ++ [token "FOR_BEGIN" (line (start l)) (column (start l)) 3])%list).
  cbv beta iota.
  destruct (visitWithoutReset fieldNames (lookup "left" ps) _) as [r1|];
    [|reflexivity].
  rewrite Hassign. cbv beta iota.
  destruct (visitWithoutReset fieldNames (lookup "right" ps) _) as [r2|];
    [|reflexivity].
  destruct (visitWithoutReset fieldNames (lookup "body" ps) _) as [r3|];
    reflexivity.
Qed.

(** C9.  A for-in statement yields what the for-of rule yields on the
    same node, whatever the node carries.  On a node with a location
    whose left-hand side has a location (and no truthy [value]
    property) these are the tokens of the specification's rule for
    iteration over a collection: FOR_BEGIN of length 3 at the start of
    the statement, the tokens of the left-hand side, ASSIGN of length 1
    at the start of the left-hand side, the tokens of the right-hand
    side and of the body, and FOR_END of length 1 at the close of the
    statement.  Each child is visited once: the delegation does not
    start the default traversal again. *)
Theorem C9_for_in_is_for_of :
  (forall fieldNames loc range ps r0,
      visitWithoutReset fieldNames
        (VObj loc range (("type", VStr "ForInStatement") :: ps)) r0
      = visitWithoutReset fieldNames
          (VObj loc range (("type", VStr "ForOfStatement") :: ps)) r0)
  /\
  (forall fieldNames l range ps ll lr lps r0,
      lookup "left" ps = VObj (Some ll) lr lps ->
      truthy (lookup "value" lps) = false ->
      visitWithoutReset fieldNames
        (VObj (Some l) range (("type", VStr "ForInStatement") :: ps)) r0
      = (r1 <- visitWithoutReset fieldNames (lookup "left" ps)
                 (r0 ++ [token "FOR_BEGIN" (line (start l))
                               (column (start l)) 3]) ;;
         r2 <- visitWithoutReset fieldNames (lookup "right" ps)
                 (r1 ++ [token "ASSIGN" (line (start ll))
                               (column (start ll)) 1]) ;;
         r3 <- visitWithoutReset fieldNames (lookup "body" ps) r2 ;;
         Ok (r3 ++ [token "FOR_END" (line (end_ l))
                          (Z.max (column (end_ l) - 1) 0) 1])%list)%result
      /\
      visitWithoutReset fieldNames
        (VObj (Some l) range (("type", VStr "ForInStatement") :: ps)) r0
      = iterationRule fieldNames l ll
          (lookup "left" ps) (lookup "right" ps) (lookup "body" ps) r0).
Proof.
  split; [exact forIn_as_forOf|].
  intros F l range ps ll lr lps r0 Hleft Hvalue.
  rewrite forIn_as_forOf, (forOf_tokens F l range ps ll lr lps r0 Hleft Hvalue).
  split; reflexivity.
Qed.

Lemma C9_for_in_is_for_of_witness :
  visitWithoutReset estreeFields forInNode []
  = Ok [ token "FOR_BEGIN" 1 0 3; token "ASSIGN" 1 5 1;
         token "APPLY" 1 13 1; token "FOR_END" 1 15 1 ].
Proof.
  exact (eq_trans
           (proj1 (proj2 C9_for_in_is_for_of estreeFields
                         (mkLoc (mkPos 1 0) (mkPos 1 16)) (Some (0, 16))
                         [ ("start", VNum 0); ("end", VNum 16);
                           ("left", ident "k" 5 6);
                           ("right", ident "o" 10 11);
                           ("body",
                            node1 "ExpressionStatement" 13 16
                              [ ("expression",
                                 node1 "CallExpression" 13 16
                                   [ ("callee", ident "f" 13 14);
                                     ("arguments", VArr []) ]) ]) ]
                         (mkLoc (mkPos 1 5) (mkPos 1 6)) (Some (5, 6))
                         [ ("type", VStr "Identifier"); ("start", VNum 5);
                           ("end", VNum 6); ("name", VStr "k") ]
                         [] eq_refl eq_refl))
           eq_refl).
Defined.

Lemma function_tokens fieldNames k l range ps r0 :
  let node := VObj (Some l) range (("type", VStr (functionType k)) :: ps) in
  visitWithoutReset fieldNames node r0 =
  (r <- visitChildren fieldNames node
          (r0 ++ [token "FUNCTION_BEGIN" (line (start l)) (column (start l))
                        (len "function")]) ;;
   Ok (r ++ [token "FUNCTION_END" (line (end_ l))
                   (Z.max (column (end_ l) - 1) 0) 1])%list)%result.
Proof.
  intros node. subst node. rewrite visitWithoutReset_obj.
  replace (methodNameOf _) with (Some "visitFunction") by (destruct k; reflexivity).
  unfold invokeVisitorMethod.
  change (method "visitFunction" traverser) with (Some (wrapVisit visitFunction)).
  unfold wrapVisit, visitFunction, bind, emitM, emitEndM, onRes, setTraversed,
    contextCall, ret, rbind, token.
  cbn. split_result; reflexivity.
Qed.

Lemma forStatement_tokens fieldNames l range ps r0 :
  let node := VObj (Some l) range (("type", VStr "ForStatement") :: ps) in
  visitWithoutReset fieldNames node r0 =
  (r <- visitChildren fieldNames node
          (r0 ++ [token "FOR_BEGIN" (line (start l)) (column (start l))
                        (len "for")]) ;;
   Ok (r ++ [token "FOR_END" (line (end_ l))
                   (Z.max (column (end_ l) - 1) 0) 1])%list)%result.
Proof.
  intros node. subst node. rewrite visitWithoutReset_obj.
  change (methodNameOf _) with (Some "visitForStatement").
  unfold invokeVisitorMethod.
  change (method "visitForStatement" traverser)
    with (Some (wrapVisit visitForStatement)).
  unfold wrapVisit, visitForStatement, bind, emitM, emitEndM, onRes, setTraversed,
    contextCall, ret, rbind, token.
  cbn. split_result; reflexivity.
Qed.

(** C10.  A function declaration, a function expression and an arrow
    function all yield FUNCTION_BEGIN at the start of the node with
    length 8, the length of the word "function", then the tokens of
    their children, then FUNCTION_END of length 1 at their close.  The
    arrow function [() => 1] has no word "function" and is 7 characters
    long, and still gets a FUNCTION_BEGIN of length 8. *)
Theorem C10_function_like_constructs :
  (forall fieldNames k l range ps r0,
      visitWithoutReset fieldNames
        (VObj (Some l) range (("type", VStr (functionType k)) :: ps)) r0
      = (r <- visitChildren fieldNames
                (VObj (Some l) range (("type", VStr (functionType k)) :: ps))
                (r0 ++ [token "FUNCTION_BEGIN" (line (start l))
                              (column (start l)) (len "function")]) ;;
         Ok (r ++ [token "FUNCTION_END" (line (end_ l))
                         (Z.max (column (end_ l) - 1) 0) 1])%list)%result)
  /\ len "function" = 8
  /\ doParse scenarioFiles scenarioParse scenarioLoose estreeFields "arrow.js"
     = ([], Ok [ token "FUNCTION_BEGIN" 1 0 8; token "FUNCTION_END" 1 6 1 ])
  /\ columnOf "function" sourceArrow = None
  /\ len sourceArrow = 7.
Proof.
  split; [|repeat split; reflexivity].
  intros F k l range ps r0. apply function_tokens.
Qed.

(** C1 as the specification words it fails on the tree of scenario A:
    the output has ASSIGN tokens. *)
Lemma C1_header_emits_assign :
  ~ (forall out,
        snd (doParse scenarioFiles scenarioParse scenarioLoose estreeFields "a.js")
        = Ok out ->
        hasToken "FOR_BEGIN" 1 0 3 out /\
        hasToken "FOR_END" 1 29 1 out /\
        forall t, In t out -> Token.key t <> Some "ASSIGN").
Proof.
  intros H. destruct (H _ eq_refl) as (_ & _ & Hno).
  apply (Hno (token "ASSIGN" 1 9 1)); [|reflexivity].
  right. left. reflexivity.
Qed.

(** C1, amended.  For [for (let i = 0; i < 3; i++) {}] the output is
    FOR_BEGIN at the [for] (length 3), ASSIGN at the declarator [i = 0]
    (column 9, length 1), ASSIGN at the update [i++] (column 23,
    length 2) and FOR_END at the closing brace (length 1): a C-style
    for statement puts its two tokens around the default traversal of
    its children, header included. *)
Theorem C1_c_style_for_tokens :
  columnOf "for" sourceA = Some 0 /\
  columnOf "}" sourceA = Some 29 /\
  doParse scenarioFiles scenarioParse scenarioLoose estreeFields "a.js"
  = ([], Ok [ token "FOR_BEGIN" 1 0 3; token "ASSIGN" 1 9 1;
              token "ASSIGN" 1 23 2; token "FOR_END" 1 29 1 ]) /\
  forall fieldNames l range ps r0,
    visitWithoutReset fieldNames
      (VObj (Some l) range (("type", VStr "ForStatement") :: ps)) r0
    = (r <- visitChildren fieldNames
              (VObj (Some l) range (("type", VStr "ForStatement") :: ps))
              (r0 ++ [token "FOR_BEGIN" (line (start l)) (column (start l)) 3]) ;;
       Ok (r ++ [token "FOR_END" (line (end_ l))
                       (Z.max (column (end_ l) - 1) 0) 1])%list)%result.
Proof.
  repeat split; try reflexivity.
  intros F l range ps r0. apply forStatement_tokens.
Qed.

(** C7 as the specification words it fails on the tree of scenario C:
    no ELSE marker sits at the column of the word [else]. *)
Lemma C7_else_not_at_keyword :
  ~ (forall out col,
        snd (doParse scenarioFiles scenarioParse scenarioLoose estreeFields "c.js")
        = Ok out ->
        columnOf "else" sourceC = Some col ->
        hasToken "IF_BEGIN" 1 0 2 out /\
        hasToken "ELSE" 1 col 1 out /\
        hasToken "IF_END" 1 16 1 out).
Proof.
  intros H. destruct (H _ 10 eq_refl eq_refl) as (_ & Helse & _).
  unfold hasToken in Helse. cbn in Helse.
  repeat destruct Helse as [Helse|Helse]; try discriminate; contradiction.
Qed.

(** C7, amended.  For [if (x) {} else {}] the output is IF_BEGIN of
    length 2 at the [if], an ELSE marker of length 1 at the start of the
    alternate (column 15, the brace after the word [else], which is at
    column 10), and IF_END of length 1 at the final closing brace
    (column 16). *)
Theorem C7_if_else_tokens :
  columnOf "if" sourceC = Some 0 /\
  columnOf "else" sourceC = Some 10 /\
  (alternate <- getProp ifC "alternate" ;; locOf alternate)%result
  = Ok (mkLoc (mkPos 1 15) (mkPos 1 17)) /\
  doParse scenarioFiles scenarioParse scenarioLoose estreeFields "c.js"
  = ([], Ok [ token "IF_BEGIN" 1 0 2; token "ELSE" 1 15 1;
              token "IF_END" 1 16 1 ]).
Proof. repeat split; reflexivity. Qed.

(** C5 as the specification words it fails: the vocabulary does not
    have 32 kinds and no kind has id 1. *)
Lemma C5_not_32_kinds_from_1 :
  keyCount TOKENS <> 32 /\ ~ In 1 (map snd TOKENS).
Proof.
  split; [discriminate|]. cbn. intros H.
  repeat destruct H as [H|H]; try discriminate; contradiction.
Qed.

(** C5, amended.  The vocabulary is a fixed enumeration of 43 token
    kinds with distinct names and the ids 2 to 44 in order (0 and 1 are
    not used); the reverse table has as many entries; and the AMOUNT
    output is the kind count plus 1, which is 44. *)
Theorem C5_vocabulary :
  keyCount TOKENS = 43 /\
  map snd TOKENS = map Z.of_nat (seq 2 43) /\
  NoDup (map fst TOKENS) /\
  keyCount TOKENS_REVERSE = keyCount TOKENS /\
  forall readFileSync strictParse looseParse fieldNames argv,
    nth_error argv 3 = Some "AMOUNT" ->
    main readFileSync strictParse looseParse fieldNames argv
    = mkRun [] (Ok (OutNumber (keyCount TOKENS + 1))) /\
    keyCount TOKENS + 1 = 44.
Proof.
  split; [reflexivity|]. split; [reflexivity|]. split.
  - assert (E : nodup string_dec (map fst TOKENS) = map fst TOKENS)
      by (vm_compute; reflexivity).
    rewrite <- E. apply NoDup_nodup.
  - split; [reflexivity|].
    intros rf sp lp F argv H. unfold main. rewrite H. split; reflexivity.
Qed.

Lemma C5_vocabulary_witness :
  nth_error ["node"; "index.js"; "a.js"; "AMOUNT"] 3 = Some "AMOUNT" /\
  main scenarioFiles scenarioParse scenarioLoose estreeFields
       ["node"; "index.js"; "a.js"; "AMOUNT"]
  = mkRun [] (Ok (OutNumber 44)).
Proof.
  split; [reflexivity|].
  apply (proj2 (proj2 (proj2 (proj2 C5_vocabulary)))
           scenarioFiles scenarioParse scenarioLoose estreeFields
           ["node"; "index.js"; "a.js"; "AMOUNT"]).
  reflexivity.
Defined.

(** C6.  When the strict parser fails on a file's text, [parseToAst]
    reports it on the error stream and hands the text to the loose
    parser; the conversion then goes on from the loose parser's tree,
    and when the loose parser fails too, [doParse] ends with that error
    and the process prints no output. *)
Theorem C6_lenient_fallback :
  forall readFileSync strictParse looseParse fieldNames filename content e,
    readFileSync filename = Ok content ->
    strictParse content = Throw e ->
    parseToAst strictParse looseParse content
    = (["Got parse error: " ++ message e], looseParse content) /\
    (forall ast,
        looseParse content = Ok ast ->
        snd (doParse readFileSync strictParse looseParse fieldNames filename)
        = (res <- ASTToTokens fieldNames ast ;; Ok (sort byPosition res))%result) /\
    (forall e',
        looseParse content = Throw e' ->
        snd (doParse readFileSync strictParse looseParse fieldNames filename)
        = Throw e' /\
        stdout (main readFileSync strictParse looseParse fieldNames
                     ["node"; "index.js"; filename])
        = Throw e').
Proof.
  intros rf sp lp F filename content e Hrf Hsp.
  assert (Hp : parseToAst sp lp content
               = (["Got parse error: " ++ message e], lp content))
    by (unfold parseToAst; now rewrite Hsp).
  split; [exact Hp|]. split.
  - intros ast Hlp. unfold doParse. rewrite Hrf, Hp, Hlp. reflexivity.
  - intros e' Hlp.
    assert (Hd : doParse rf sp lp F filename
                 = (["Got parse error: " ++ message e], Throw e'))
      by (unfold doParse; rewrite Hrf, Hp, Hlp; reflexivity).
    split; [now rewrite Hd|].
    unfold main. cbn [nth_error]. now rewrite Hd.
Qed.

Lemma C6_lenient_fallback_witness :
  scenarioFiles "bad.js" = Ok sourceBad /\
  scenarioParse sourceBad = Throw (ParseError "Unexpected token") /\
  parseToAst scenarioParse failingLoose sourceBad
  = (["Got parse error: SyntaxError: Unexpected token"], failingLoose sourceBad) /\
  doParse scenarioFiles scenarioParse scenarioLoose estreeFields "bad.js"
  = (["Got parse error: SyntaxError: Unexpected token"], Ok []) /\
  stdout (main scenarioFiles scenarioParse failingLoose estreeFields
               ["node"; "index.js"; "bad.js"])
  = Throw (ParseError "Unexpected token").
Proof.
  split; [reflexivity|]. split; [reflexivity|].
  pose proof (C6_lenient_fallback scenarioFiles scenarioParse failingLoose
                estreeFields "bad.js" sourceBad (ParseError "Unexpected token")
                eq_refl eq_refl) as (Hp & _ & Hfail).
  split; [exact Hp|]. split; [reflexivity|].
  exact (proj2 (Hfail (ParseError "Unexpected token") eq_refl)).
Defined.

(** ** The emission calls of a traversal and its outcome *)

Lemma Facts_none r0 o :
  (forall r, o = Ok r -> r = r0) -> Facts r0 [] o.
Proof.
  intros H. split.
  - intros c e [].
  - intros r Hr. exists []. rewrite (H r Hr), app_nil_r. split; constructor.
Qed.

Lemma Facts_emit tok node length r0 :
  Facts r0 [CEmit tok node length r0] (emit tok node length r0).
Proof.
  split.
  - intros c e [<-|[]] H. exact H.
  - intros r H. pose proof H as H'.
    apply emit_inv in H' as (id & n & v & l & _ & _ & _ & _ & _ & _ & ->).
    eexists. split; [reflexivity|]. repeat constructor. exact H.
Qed.

Lemma Facts_emitEnd tok node surplus r0 :
  Facts r0 [CEmitEnd tok node surplus r0] (emitEnd tok node surplus r0).
Proof.
  split.
  - intros c e [<-|[]] H. exact H.
  - intros r H. pose proof H as H'.
    apply emitEnd_inv in H' as (id & k & v & l & _ & _ & _ & _ & _ & ->).
    eexists. split; [reflexivity|]. repeat constructor. exact H.
Qed.

Lemma Facts_seq r0 r1 cs1 cs2 o :
  Facts r0 cs1 (Ok r1) -> Facts r1 cs2 o -> Facts r0 (cs1 ++ cs2) o.
Proof.
  intros [H1 L1] [H2 L2]. split.
  - intros c e Hin Hc. apply in_app_or in Hin as [Hin|Hin].
    + discriminate (H1 c e Hin Hc).
    + exact (H2 c e Hin Hc).
  - intros r Hr. destruct (L1 r1 eq_refl) as (ts1 & -> & F1).
    destruct (L2 r Hr) as (ts2 & -> & F2).
    exists (ts1 ++ ts2)%list. split; [now rewrite app_assoc|].
    now apply Forall2_app.
Qed.

Section TraceSound.
Variable this : Context.
Variable traverseCalls : list Token -> list Call -> Prop.
Variable visitCalls : string -> list Token -> list Call -> Prop.
Hypothesis traverse_sound : forall s cs,
    traverseCalls (res s) cs -> Facts (res s) cs (outRes (this_traverse this s)).
Hypothesis visit_sound : forall name s cs,
    visitCalls name (res s) cs ->
    Facts (res s) cs (outRes (this_visit this name s)).

Lemma Trace_sound (A : Type) (m : M A) s cs :
  Trace this traverseCalls visitCalls A m s cs ->
  Facts (res s) cs (outRes (m s)).
Proof.
  induction 1 as
      [ A a s | A r s | b s | tok node length s | tok node surplus s
      | s cs Hcs | name s cs Hcs
      | A B m k s a s1 cs1 cs2 _ IH1 Hm _ IH2
      | A B m k s e cs _ IH Hm
      | value path s e cs _ IH Hbody
      | value path s r s1 cs1 cs2 _ IH1 Hbody Hcond _ IH2
      | value path s r s1 cs _ IH Hbody Hcond ].
  - apply Facts_none. cbn. now intros r [= <-].
  - apply Facts_none. unfold pure. destruct r; cbn; [now intros r [= <-] | discriminate].
  - apply Facts_none. cbn. now intros r [= <-].
  - unfold emitM, onRes. pose proof (Facts_emit tok node length (res s)) as H.
    destruct (emit tok node length (res s)); exact H.
  - unfold emitEndM, onRes. pose proof (Facts_emitEnd tok node surplus (res s)) as H.
    destruct (emitEnd tok node surplus (res s)); exact H.
  - now apply traverse_sound.
  - now apply visit_sound.
  - unfold bind. rewrite Hm in *. cbn [outRes] in IH1.
    eapply Facts_seq; eauto.
  - unfold bind. rewrite Hm in *. exact IH.
  - unfold wrapVisit. rewrite Hbody in *. exact IH.
  - unfold wrapVisit. rewrite Hbody in *. rewrite Hcond.
    cbn [outRes res] in IH1.
    eapply Facts_seq; [exact IH1|].
    destruct (this_traverse this s1) as [[u s2]|]; exact IH2.
  - unfold wrapVisit. rewrite Hbody in *. rewrite Hcond. exact IH.
Qed.
End TraceSound.

Section TracedRules.
Variable this : Context.
Variable traverseCalls : list Token -> list Call -> Prop.
Variable visitCalls : string -> list Token -> list Call -> Prop.

Lemma Traced_ret {A : Type} (a : A) :
  Traced this traverseCalls visitCalls (ret a).
Proof. intros s. eexists. constructor. Qed.

Lemma Traced_pure {A : Type} (r : Result A) :
  Traced this traverseCalls visitCalls (pure r).
Proof. intros s. eexists. constructor. Qed.

Lemma Traced_setTraversed b :
  Traced this traverseCalls visitCalls (setTraversed b).
Proof. intros s. eexists. constructor. Qed.

Lemma Traced_emitM tok node length :
  Traced this traverseCalls visitCalls (emitM tok node length).
Proof. intros s. eexists. constructor. Qed.

Lemma Traced_emitEndM tok node surplus :
  Traced this traverseCalls visitCalls (emitEndM tok node surplus).
Proof. intros s. eexists. constructor. Qed.

Lemma Traced_bind {A B : Type} (m : M A) (k : A -> M B) :
  Traced this traverseCalls visitCalls m ->
  (forall a, Traced this traverseCalls visitCalls (k a)) ->
  Traced this traverseCalls visitCalls (bind m k).
Proof.
  intros Hm Hk s. destruct (Hm s) as [cs1 H1].
  destruct (m s) as [[a s1]|e] eqn:E.
  - destruct (Hk a s1) as [cs2 H2]. exists (cs1 ++ cs2)%list.
    eapply Trace_bind_ok; eauto.
  - exists cs1. eapply Trace_bind_throw; eauto.
Qed.

Lemma Traced_wrapVisit (body : Body) (path : Value) :
  Traced this traverseCalls visitCalls (this_traverse this) ->
  (forall name, Traced this traverseCalls visitCalls (this_visit this name)) ->
  BodyTraced body ->
  Traced this traverseCalls visitCalls (wrapVisit body this path).
Proof.
  intros Ht Hv Hbody s.
  assert (Hb : Traced this traverseCalls visitCalls
                 (body this path
                       (this_traverse this ;; setTraversed true)%visit
                       (fun name => this_visit this name ;; setTraversed true)%visit)).
  { apply Hbody; trivial.
    - apply Traced_bind; [exact Ht | intros; apply Traced_setTraversed].
    - intros name. apply Traced_bind; [apply Hv | intros; apply Traced_setTraversed]. }
  destruct (Hb (mkState (res s) (needToCallTraverse s) false)) as [cs1 H1].
  match type of H1 with
  | Trace _ _ _ _ ?m ?s0 _ => destruct (m s0) as [[r s1]|e] eqn:E
  end.
  - destruct (negb (traversed s1) && negb r) eqn:C.
    + destruct (Ht s1) as [cs2 H2]. exists (cs1 ++ cs2)%list.
      eapply Trace_wrap_traverse; eauto.
    + exists cs1. eapply Trace_wrap_done; eauto.
  - exists cs1. eapply Trace_wrap_throw; eauto.
Qed.
End TracedRules.

Ltac trace_step :=
  lazymatch goal with
  | |- Traced _ _ _ (bind _ _) => apply Traced_bind; [|intros ?]
  | |- Traced _ _ _ (ret _) => apply Traced_ret
  | |- Traced _ _ _ (pure _) => apply Traced_pure
  | |- Traced _ _ _ (emitM _ _ _) => apply Traced_emitM
  | |- Traced _ _ _ (emitEndM _ _ _) => apply Traced_emitEndM
  | |- Traced _ _ _ (if ?c then _ else _) => destruct c
  | |- Traced _ _ _ (wrapVisit visitForOfStatement _ _) =>
      apply Traced_wrapVisit;
      [assumption | assumption
       | intros ? ? ? ? ? ? ? ? ? ?; unfold visitForOfStatement]
  | |- Traced _ _ _ _ => solve [assumption | auto]
  end.

Lemma visitorMethods_traced :
  Forall (fun kv => BodyTraced (snd kv)) visitorMethods.
Proof.
  unfold visitorMethods.
  repeat lazymatch goal with
  | |- Forall _ [] => constructor
  | |- Forall _ ((_, ?body) :: _) =>
      constructor;
      [cbn [snd];
       intros this traverseCalls visitCalls path traverse visit
              Hthis_t Hthis_v Htraverse Hvisit;
       unfold body; repeat trace_step|]
  end.
Qed.

Section LoopCallsFacts.
Variable visitOne : Value -> list Token -> Result (list Token).
Variable callsOne : Value -> list Token -> list Call -> Prop.

Lemma eachCalls_total (l : list Value) :
  Forall (fun x => forall r, exists cs, callsOne x r cs) l ->
  forall r, exists cs, eachCalls visitOne callsOne l r cs.
Proof.
  induction 1 as [|x l Hx _ IH]; intros r; cbn [eachCalls]; [eauto|].
  destruct (Hx r) as [cs1 H1]. destruct (visitOne x r) as [r'|e] eqn:E.
  - destruct (IH r') as [cs2 H2]. exists (cs1 ++ cs2)%list, cs1.
    split; [exact H1 | eauto].
  - exists cs1, cs1. split; [exact H1 | reflexivity].
Qed.

Lemma eachCalls_sound (l : list Value) :
  Forall (fun x => forall r cs, callsOne x r cs -> Facts r cs (visitOne x r)) l ->
  forall r cs, eachCalls visitOne callsOne l r cs ->
               Facts r cs (eachElem visitOne l r).
Proof.
  induction 1 as [|x l Hx _ IH]; intros r cs; cbn [eachCalls eachElem].
  - intros ->. apply Facts_none. now intros r' [= <-].
  - intros (cs1 & H1 & H). specialize (Hx r cs1 H1).
    destruct (visitOne x r) as [r'|e].
    + destruct H as (cs2 & H2 & ->). eapply Facts_seq; eauto.
    + subst cs. exact Hx.
Qed.

Lemma propCalls_total (name : string) (ps : list (string * Value)) :
  Forall (fun kv => forall r, exists cs, callsOne (snd kv) r cs) ps ->
  forall r, exists cs, propCalls callsOne name ps r cs.
Proof.
  induction 1 as [|kv ps Hkv _ IH]; intros r; cbn [propCalls]; [eauto|].
  destruct (String.eqb (fst kv) name); auto.
Qed.

Lemma propCalls_sound (name : string) (ps : list (string * Value)) :
  Forall (fun kv => forall r cs, callsOne (snd kv) r cs ->
                                 Facts r cs (visitOne (snd kv) r)) ps ->
  forall r cs, propCalls callsOne name ps r cs ->
               Facts r cs (visitProp visitOne name ps r).
Proof.
  induction 1 as [|kv ps Hkv _ IH]; intros r cs; cbn [propCalls visitProp].
  - intros ->. apply Facts_none. now intros r' [= <-].
  - destruct (String.eqb (fst kv) name); auto.
Qed.

Lemma fieldsCalls_total (ps : list (string * Value)) (ns : list string) :
  Forall (fun kv => forall r, exists cs, callsOne (snd kv) r cs) ps ->
  forall r, exists cs, fieldsCalls visitOne callsOne ps ns r cs.
Proof.
  intros Hps. induction ns as [|n ns IH]; intros r; cbn [fieldsCalls]; [eauto|].
  destruct (propCalls_total n ps Hps r) as [cs1 H1].
  destruct (visitProp visitOne n ps r) as [r'|e] eqn:E.
  - destruct (IH r') as [cs2 H2]. exists (cs1 ++ cs2)%list, cs1.
    split; [exact H1 | eauto].
  - exists cs1, cs1. split; [exact H1 | reflexivity].
Qed.

Lemma fieldsCalls_sound (ps : list (string * Value)) (ns : list string) :
  Forall (fun kv => forall r cs, callsOne (snd kv) r cs ->
                                 Facts r cs (visitOne (snd kv) r)) ps ->
  forall r cs, fieldsCalls visitOne callsOne ps ns r cs ->
               Facts r cs (visitFields visitOne ps ns r).
Proof.
  intros Hps. induction ns as [|n ns IH]; intros r cs;
    cbn [fieldsCalls visitFields].
  - intros ->. apply Facts_none. now intros r' [= <-].
  - intros (cs1 & H1 & H). pose proof (propCalls_sound n ps Hps r cs1 H1) as Hp.
    destruct (visitProp visitOne n ps r) as [r'|e].
    + destruct H as (cs2 & H2 & ->). eapply Facts_seq; eauto.
    + subst cs. exact Hp.
Qed.

Lemma keysCalls_total (ps : list (string * Value)) :
  Forall (fun kv => forall r, exists cs, callsOne (snd kv) r cs) ps ->
  forall r, exists cs, keysCalls visitOne callsOne ps r cs.
Proof.
  induction 1 as [|kv ps Hkv _ IH]; intros r; cbn [keysCalls]; [eauto|].
  destruct (Hkv r) as [cs1 H1]. destruct (visitOne (snd kv) r) as [r'|e] eqn:E.
  - destruct (IH r') as [cs2 H2]. exists (cs1 ++ cs2)%list, cs1.
    split; [exact H1 | eauto].
  - exists cs1, cs1. split; [exact H1 | reflexivity].
Qed.

Lemma keysCalls_sound (ps : list (string * Value)) :
  Forall (fun kv => forall r cs, callsOne (snd kv) r cs ->
                                 Facts r cs (visitOne (snd kv) r)) ps ->
  forall r cs, keysCalls visitOne callsOne ps r cs ->
               Facts r cs (visitKeys visitOne ps r).
Proof.
  induction 1 as [|kv ps Hkv _ IH]; intros r cs; cbn [keysCalls visitKeys].
  - intros ->. apply Facts_none. now intros r' [= <-].
  - intros (cs1 & H1 & H). specialize (Hkv r cs1 H1).
    destruct (visitOne (snd kv) r) as [r'|e].
    + destruct H as (cs2 & H2 & ->). eapply Facts_seq; eauto.
    + subst cs. exact Hkv.
Qed.

Lemma childrenCalls_total fieldNames ty (ps : list (string * Value)) :
  Forall (fun kv => forall r, exists cs, callsOne (snd kv) r cs) ps ->
  forall r, exists cs, childrenCalls fieldNames visitOne callsOne ty ps r cs.
Proof.
  intros Hps r. unfold childrenCalls.
  destruct (match ty with Some t => fieldNames t | None => None end).
  - now apply fieldsCalls_total.
  - destruct (hasProp "type" ps); [eauto|]. now apply keysCalls_total.
Qed.

Lemma childrenCalls_sound fieldNames ty (ps : list (string * Value)) :
  Forall (fun kv => forall r cs, callsOne (snd kv) r cs ->
                                 Facts r cs (visitOne (snd kv) r)) ps ->
  forall r cs, childrenCalls fieldNames visitOne callsOne ty ps r cs ->
               Facts r cs (visitChildrenWith fieldNames visitOne ty ps r).
Proof.
  intros Hps r cs. unfold childrenCalls, visitChildrenWith.
  destruct (match ty with Some t => fieldNames t | None => None end).
  - now apply fieldsCalls_sound.
  - destruct (hasProp "type" ps).
    + intros ->. apply Facts_none. discriminate.
    + now apply keysCalls_sound.
Qed.
End LoopCallsFacts.

Lemma calls_total fieldNames (v : Value) :
  forall r0, exists cs, calls fieldNames v r0 cs.
Proof.
  induction v as [ | | b | n | s | elems IH | loc range props IH ]
    using Value_nested_ind; intros r0.
  1-5: exists []; reflexivity.
  - cbn [calls]. now apply eachCalls_total.
  - cbn [calls].
    destruct (methodNameOf (VObj loc range props)) as [m|];
      [|now apply (childrenCalls_total (visitWithoutReset fieldNames))].
    destruct (method m traverser) as [f|] eqn:Hm; [|eauto].
    rewrite makeTraverser_wraps_all in Hm.
    apply method_map_wrap in Hm as (body & Hin & ->).
    pose proof visitorMethods_traced as Hall.
    rewrite Forall_forall in Hall. specialize (Hall _ Hin). cbn [snd] in Hall.
    apply Traced_wrapVisit; [| |exact Hall].
    + intros s. destruct (childrenCalls_total (visitWithoutReset fieldNames)
                            (calls fieldNames) fieldNames
                            (typeOf (VObj loc range props)) props IH (res s))
        as [cs H].
      exists cs. now apply Trace_traverse.
    + intros name s.
      destruct (propCalls_total (calls fieldNames) name props IH (res s))
        as [cs H].
      exists cs. now apply Trace_visit.
Qed.

Lemma calls_sound fieldNames (v : Value) :
  forall r0 cs, calls fieldNames v r0 cs ->
                Facts r0 cs (visitWithoutReset fieldNames v r0).
Proof.
  induction v as [ | | b | n | s | elems IH | loc range props IH ]
    using Value_nested_ind; intros r0 cs.
  1-5: cbn [calls visitWithoutReset]; intros ->; apply Facts_none;
    now intros r [= <-].
  - cbn [calls visitWithoutReset]. now apply eachCalls_sound.
  - rewrite visitWithoutReset_obj. unfold visitChildren. cbn [calls].
    destruct (methodNameOf (VObj loc range props)) as [m|];
      [|now apply childrenCalls_sound].
    unfold invokeVisitorMethod.
    destruct (method m traverser) as [f|].
    + intros H. eapply Trace_sound in H.
      * cbn [res] in H.
        match type of H with
        | Facts _ _ (outRes ?o) => destruct o as [[u s]|e]
        end; [|exact H].
        cbn [outRes] in H. destruct (needToCallTraverse s); [|exact H].
        destruct H as [Hfail _]. split.
        -- intros c e Hin Hc. discriminate (Hfail c e Hin Hc).
        -- discriminate.
      * intros s cs' Hcs. cbn [this_traverse]. unfold contextCall.
        pose proof (childrenCalls_sound _ _ fieldNames
                      (typeOf (VObj loc range props)) props IH (res s) cs' Hcs)
          as Hf.
        destruct (visitChildrenWith fieldNames (visitWithoutReset fieldNames)
                    (typeOf (VObj loc range props)) props (res s)); exact Hf.
      * intros name s cs' Hcs. cbn [this_visit]. unfold contextCall.
        pose proof (propCalls_sound _ _ name props IH (res s) cs' Hcs) as Hf.
        destruct (visitProp (visitWithoutReset fieldNames) name props (res s));
          exact Hf.
    + intros ->. apply Facts_none. discriminate.
Qed.

(** An exception inside a method body ends the body. *)
Lemma bind_throw {A B : Type} (m : M A) (k : A -> M B) s e :
  m s = Throw e -> bind m k s = Throw e.
Proof. intros H. unfold bind. now rewrite H. Qed.




(* ================================================================== *)
(** * Further properties of the code *)

(** ** The two tables *)

Lemma TOKENS_REVERSE_swap :
  TOKENS_REVERSE = map (fun kv => (snd kv, fst kv)) TOKENS.
Proof. reflexivity. Qed.

Lemma lookupName_In (tbl : list (string * Z)) name id :
  NoDup (map fst tbl) ->
  lookupName name tbl = Some id <-> In (name, id) tbl.
Proof.
  induction tbl as [|[k v] tbl IH]; cbn [lookupName map fst In].
  - intros _. split; [discriminate | contradiction].
  - intros Hnd. inversion Hnd as [|? ? Hk Hnd']; subst.
    destruct (String.eqb k name) eqn:E.
    + apply String.eqb_eq in E. subst k. split.
      * intros [= ->]. now left.
      * intros [[= ->]|Hin]; [reflexivity|].
        exfalso. apply Hk. now apply (in_map fst) in Hin.
    + apply String.eqb_neq in E. rewrite (IH Hnd'). split.
      * now right.
      * intros [[= -> _]|Hin]; [contradiction | exact Hin].
Qed.

Lemma lookupId_In (tbl : list (Z * string)) id name :
  NoDup (map fst tbl) ->
  lookupId id tbl = Some name <-> In (id, name) tbl.
Proof.
  induction tbl as [|[v k] tbl IH]; cbn [lookupId map fst In].
  - intros _. split; [discriminate | contradiction].
  - intros Hnd. inversion Hnd as [|? ? Hv Hnd']; subst.
    destruct (v =? id) eqn:E.
    + apply Z.eqb_eq in E. subst v. split.
      * intros [= ->]. now left.
      * intros [[= ->]|Hin]; [reflexivity|].
        exfalso. apply Hv. now apply (in_map fst) in Hin.
    + apply Z.eqb_neq in E. rewrite (IH Hnd'). split.
      * now right.
      * intros [[= -> _]|Hin]; [contradiction | exact Hin].
Qed.

Lemma TOKENS_names_distinct : NoDup (map fst TOKENS).
Proof.
  assert (E : nodup string_dec (map fst TOKENS) = map fst TOKENS)
    by (vm_compute; reflexivity).
  rewrite <- E. apply NoDup_nodup.
Qed.

Lemma TOKENS_ids_distinct : NoDup (map fst TOKENS_REVERSE).
Proof.
  assert (E : nodup Z.eq_dec (map fst TOKENS_REVERSE) = map fst TOKENS_REVERSE)
    by (vm_compute; reflexivity).
  rewrite <- E. apply NoDup_nodup.
Qed.

Lemma lookup_round_trip name id :
  T name = Some id <-> lookupId id TOKENS_REVERSE = Some name.
Proof.
  unfold T.
  rewrite (lookupName_In _ _ _ TOKENS_names_distinct).
  rewrite (lookupId_In _ _ _ TOKENS_ids_distinct).
  rewrite TOKENS_REVERSE_swap, in_map_iff. split.
  - intros H. exists (name, id). split; [reflexivity | exact H].
  - intros ([k v] & [= <- <-] & H). exact H.
Qed.

(** X1.  The reverse table inverts the vocabulary: a name has an id in
    [TOKENS] exactly when [TOKENS_REVERSE] gives that name back for the
    id, so no two kinds share an id and no entry is lost in the
    reversal. *)
Theorem X1_tables_round_trip :
  forall name id,
    T name = Some id <-> lookupId id TOKENS_REVERSE = Some name.
Proof. exact lookup_round_trip. Qed.

Lemma T_bounds name id : T name = Some id -> 2 <= id <= 44.
Proof.
  unfold T. rewrite (lookupName_In _ _ _ TOKENS_names_distinct). intros Hin.
  assert (Hall : Forall (fun kv => 2 <= snd kv <= 44) TOKENS)
    by (unfold TOKENS; repeat constructor; cbn [snd]; lia).
  rewrite Forall_forall in Hall. exact (Hall _ Hin).
Qed.

(** ** The comparison function and the sort *)

(** X2.  The comparison function of [doParse] is a consistent order:
    swapping the arguments negates the result, the result is zero
    exactly for two tokens at the same line and column, and "not
    greater" is transitive. *)
Theorem X2_byPosition_consistent :
  (forall a b, byPosition a b = - byPosition b a) /\
  (forall a b,
      byPosition a b = 0 <->
      Token.line a = Token.line b /\ Token.column a = Token.column b) /\
  (forall a b c,
      byPosition a b <= 0 -> byPosition b c <= 0 -> byPosition a c <= 0).
Proof.
  unfold byPosition. repeat apply conj; intros;
    repeat match goal with
           | |- context [?x =? 0] => destruct (Z.eqb_spec x 0)
           | H : context [?x =? 0] |- _ => destruct (Z.eqb_spec x 0)
           end; lia.
Qed.

Lemma sort_of_sorted l : Sorted posLe l -> sort byPosition l = l.
Proof.
  induction 1 as [|x l Hs IH Hhd]; [reflexivity|].
  cbn [sort fold_right]. fold (sort byPosition l). rewrite IH.
  destruct Hhd as [|y l' Hxy]; [reflexivity|].
  cbn [insert]. apply byPosition_le in Hxy. now rewrite Hxy.
Qed.

(** X3.  Sorting is idempotent: a sequence that is already in output
    order, such as the result of [doParse], is left as it is by the
    sort, token for token. *)
Theorem X3_sort_idempotent :
  forall toks, sort byPosition (sort byPosition toks) = sort byPosition toks.
Proof. intros toks. apply sort_of_sorted, sort_sorted. Qed.

(** ** Properties of single tokens that the whole traversal keeps *)

Section TokenInvariant.
Variable Q : Token -> Prop.
Hypothesis Q_emit : forall name a length, WalkOk Q (emit (T name) a length).
Hypothesis Q_emitEnd : forall tok a surplus, WalkOk Q (emitEnd tok a surplus).

Ltac inv_step :=
  lazymatch goal with
  | |- MOk _ (bind _ _) => apply MOk_bind; [|intros ?]
  | |- MOk _ (ret _) => apply MOk_ret
  | |- MOk _ (pure _) => apply MOk_pure
  | |- MOk _ (emitM (T _) _ _) => apply MOk_onRes, Q_emit
  | |- MOk _ (emitEndM _ _ _) => apply MOk_onRes, Q_emitEnd
  | |- MOk _ (if ?c then _ else _) => destruct c
  | |- MOk _ (wrapVisit _ _ _) => apply MOk_wrapVisit; [assumption | intros ? ? ? ?]
  | |- MOk _ (visitForOfStatement _ _ _ _) => unfold visitForOfStatement
  | |- MOk _ _ => solve [assumption | auto]
  end.

Lemma visitorMethods_inv :
  Forall (fun kv => BodyInv Q (snd kv)) visitorMethods.
Proof.
  unfold visitorMethods.
  repeat lazymatch goal with
  | |- Forall _ [] => constructor
  | |- Forall _ ((_, ?body) :: _) =>
      constructor;
      [cbn [snd]; intros this path traverse visit Hthis Htraverse Hvisit;
       unfold body; repeat inv_step|]
  end.
Qed.

Lemma invokeVisitorMethod_inv methodName this path :
  ContextOk Q this -> WalkOk Q (invokeVisitorMethod methodName this path).
Proof.
  intros Hthis r0 r. unfold invokeVisitorMethod.
  destruct (method methodName traverser) as [f|] eqn:Hm; [|discriminate].
  rewrite makeTraverser_wraps_all in Hm.
  apply method_map_wrap in Hm as (body & Hin & ->).
  pose proof visitorMethods_inv as Hall.
  rewrite Forall_forall in Hall. specialize (Hall _ Hin). cbn [snd] in Hall.
  destruct (wrapVisit body this path (mkState r0 true false)) as [[u s]|] eqn:E;
    [|discriminate].
  destruct (needToCallTraverse s); [discriminate|]. intros [= <-].
  change r0 with (res (mkState r0 true false)).
  eapply MOk_wrapVisit; [exact Hthis | | exact E].
  intros traverse visit Ht Hv. now apply Hall.
Qed.

Lemma visitWithoutReset_inv fieldNames (v : Value) :
  WalkOk Q (visitWithoutReset fieldNames v).
Proof.
  induction v as [ | | b | n | s | elems IH | loc range props IH ]
    using Value_nested_ind;
    try (intros r0 r [= <-]; apply Extends_refl).
  - cbn [visitWithoutReset]. now apply eachElem_ok.
  - intros r0 r. rewrite visitWithoutReset_obj.
    destruct (methodNameOf (VObj loc range props)) as [m|].
    + apply invokeVisitorMethod_inv. split; cbn.
      * apply MOk_contextCall. now apply visitChildrenWith_ok.
      * intros name. apply MOk_contextCall. now apply visitProp_ok.
    + cbn [visitChildren]. now apply visitChildrenWith_ok.
Qed.

Lemma doParse_inv_tokens readFileSync strictParse looseParse fieldNames
      filename log out :
  doParse readFileSync strictParse looseParse fieldNames filename = (log, Ok out) ->
  Forall Q out.
Proof.
  intros H.
  apply doParse_inv in H as (content & ast & emitted & _ & _ & Hem & ->).
  apply (visitWithoutReset_inv fieldNames ast) in Hem.
  destruct Hem as (new & -> & Hnew). cbn [app] in *.
  rewrite Forall_forall in Hnew |- *.
  intros t Ht. apply sort_In in Ht. now apply Hnew.
Qed.
End TokenInvariant.

Lemma emit_known name a length :
  WalkOk (fun t => KnownKind t /\ 2 <= Token.value t <= 44)
         (emit (T name) a length).
Proof.
  intros r0 r H.
  apply emit_inv in H as (id & n & v & l & Hid & _ & _ & _ & _ & _ & ->).
  apply Extends_one. split.
  - exists name. cbn [Token.key Token.value].
    split; [f_equal; now apply lookup_round_trip | exact Hid].
  - cbn [Token.value]. eapply T_bounds; eauto.
Qed.

Lemma emitEnd_known tok a surplus :
  WalkOk (fun t => KnownKind t /\ 2 <= Token.value t <= 44)
         (emitEnd tok a surplus).
Proof.
  intros r0 r H.
  apply emitEnd_inv in H as (id & k & v & l & -> & Hk & _ & _ & _ & ->).
  apply lookup_round_trip in Hk.
  apply Extends_one. split.
  - exists k. cbn [Token.key Token.value]. now split.
  - cbn [Token.value]. eapply T_bounds; eauto.
Qed.

(** X4.  Every token of the output carries a kind of the vocabulary:
    its key is the name that [TOKENS] gives its id, and the id lies
    between 2 and 44. *)
Theorem X4_output_kinds_in_vocabulary :
  forall readFileSync strictParse looseParse fieldNames filename log out,
    doParse readFileSync strictParse looseParse fieldNames filename = (log, Ok out) ->
    Forall (fun t => KnownKind t /\ 2 <= Token.value t <= 44) out.
Proof.
  intros rf sp lp F filename log out.
  apply doParse_inv_tokens; [apply emit_known | apply emitEnd_known].
Qed.

Lemma X4_output_kinds_in_vocabulary_witness :
  doParse scenarioFiles scenarioParse scenarioLoose estreeFields "tie.js"
  = ([], Ok [ token "ASSIGN" 1 0 2; token "APPLY" 1 2 3; token "APPLY" 1 2 1 ]) /\
  Forall (fun t => KnownKind t /\ 2 <= Token.value t <= 44)
         [ token "ASSIGN" 1 0 2; token "APPLY" 1 2 3; token "APPLY" 1 2 1 ].
Proof.
  split; [reflexivity|].
  apply (X4_output_kinds_in_vocabulary scenarioFiles scenarioParse
           scenarioLoose estreeFields "tie.js" []).
  reflexivity.
Defined.

(** ** Trees without constructs *)

Lemma Extends_nothing r0 r : Extends (fun _ => False) r0 r -> r = r0.
Proof.
  intros (new & -> & Hnew). destruct new as [|t new].
  - apply app_nil_r.
  - inversion Hnew; contradiction.
Qed.

Lemma visitWithoutReset_silent fieldNames (v : Value) :
  (forall c, Within c v -> methodNameOf c = None) ->
  WalkOk (fun _ => False) (visitWithoutReset fieldNames v).
Proof.
  induction v as [ | | b | n | s | elems IH | loc range props IH ]
    using Value_nested_ind; intros Hnone;
    try (intros r0 r [= <-]; apply Extends_refl).
  - cbn [visitWithoutReset]. apply eachElem_ok.
    rewrite Forall_forall in IH |- *. intros x Hx. apply IH; [exact Hx|].
    intros c Hc. apply Hnone. eapply Within_elem; eauto.
  - assert (Hps : Forall (fun kv => WalkOk (fun _ => False)
                                      (visitWithoutReset fieldNames (snd kv))) props).
    { rewrite Forall_forall in IH |- *. intros [k x] Hx. apply IH; [exact Hx|].
      intros c Hc. apply Hnone. eapply Within_prop; eauto. }
    intros r0 r. rewrite visitWithoutReset_obj.
    rewrite (Hnone _ (Within_here _)).
    cbn [visitChildren]. now apply visitChildrenWith_ok.
Qed.

(** X5.  Tokens come from constructs only: when no node of the tree
    has a visitor method, a traversal that returns yields no token at
    all. *)
Theorem X5_no_construct_no_token :
  forall fieldNames ast out,
    (forall c, Within c ast -> methodNameOf c = None) ->
    ASTToTokens fieldNames ast = Ok out ->
    out = [].
Proof.
  intros F ast out Hnone H.
  apply (visitWithoutReset_silent F ast Hnone) in H.
  now apply Extends_nothing in H.
Qed.

Lemma Within_descendants c v : Within c v -> In c (descendants v).
Proof.
  induction 1 as [|elems x Hx _ IH|loc range props k x Hx _ IH].
  - destruct c; now left.
  - right. cbn. apply in_flat_map. eauto.
  - right. cbn. apply in_flat_map. exists (k, x). auto.
Qed.

Lemma X5_no_construct_no_token_witness :
  (forall c, Within c astPlain -> methodNameOf c = None) /\
  ASTToTokens estreeFields astPlain = Ok [] /\
  (@nil Token) = [].
Proof.
  assert (Hnone : forall c, Within c astPlain -> methodNameOf c = None).
  { intros c H. apply Within_descendants in H. cbn in H.
    repeat destruct H as [<-|H]; try reflexivity; contradiction. }
  split; [exact Hnone|]. split; [reflexivity|].
  exact (X5_no_construct_no_token estreeFields astPlain [] Hnone eq_refl).
Defined.

(** ** The wrapper of [makeTraverser] and the walker's check *)

Lemma getProp_throw v k e : getProp v k = Throw e -> e = TypeError.
Proof. destruct v; cbn; congruence. Qed.

Lemma getLength_throw v e : getLength v = Throw e -> e = TypeError.
Proof.
  destruct v as [ | | | | | |loc [[a b]|] props]; cbn; congruence.
Qed.

Lemma lengthOf_throw v e : lengthOf v = Throw e -> e = TypeError.
Proof. destruct v; cbn; congruence. Qed.

Lemma valueOrSelf_throw a e : valueOrSelf a = Throw e -> e = TypeError.
Proof.
  destruct a as [p|n]; cbn [valueOrSelf]; [discriminate|].
  destruct n; cbn; congruence.
Qed.

Lemma locOf_throw v e : locOf v = Throw e -> e = TypeError.
Proof.
  unfold locOf, getLoc, rbind. destruct v; try congruence.
  destruct loc; congruence.
Qed.

Lemma emit_throw tok a length r0 e :
  emit tok a length r0 = Throw e -> e = AssertionError \/ e = TypeError.
Proof.
  unfold emit, rbind. destruct tok; [|intros [= <-]; now left].
  destruct (negb (anchorNonNull a)); [intros [= <-]; now left|].
  destruct length; [|intros [= <-]; now left].
  destruct (negb (0 <? z0)); [intros [= <-]; now left|].
  destruct (valueOrSelf a) eqn:Hv.
  - destruct (locOf a0) eqn:Hl; [discriminate|].
    intros [= <-]. right. eapply locOf_throw; eauto.
  - intros [= <-]. right. eapply valueOrSelf_throw; eauto.
Qed.

Lemma emitEnd_throw tok a surplus r0 e :
  emitEnd tok a surplus r0 = Throw e -> e = AssertionError \/ e = TypeError.
Proof.
  unfold emitEnd, rbind. destruct tok; [|intros [= <-]; now left].
  destruct (valueOrSelf a) eqn:Hv.
  - destruct (is_nullish a0); [intros [= <-]; now left|].
    destruct (lookupId z TOKENS_REVERSE); [|intros [= <-]; now right].
    destruct (negb (endsWith s "END")); [intros [= <-]; now left|].
    destruct (locOf a0) eqn:Hl; [discriminate|].
    intros [= <-]. right. eapply locOf_throw; eauto.
  - intros [= <-]. right. eapply valueOrSelf_throw; eauto.
Qed.

Section MHRules.

Lemma MH_ret {A : Type} (pre : VState -> Prop) (a : A)
      (post : A -> VState -> Prop) :
  (forall s, pre s -> post a s) -> MH pre (ret a) post.
Proof. intros H s Hs. cbn. now apply H. Qed.

Lemma MH_bind {A B : Type} (pre : VState -> Prop) (m : M A)
      (mid : A -> VState -> Prop) (k : A -> M B) (post : B -> VState -> Prop) :
  MH pre m mid -> (forall a, MH (mid a) (k a) post) -> MH pre (bind m k) post.
Proof.
  intros Hm Hk s Hs. unfold bind. specialize (Hm s Hs).
  destruct (m s) as [[a s1]|]; [|exact Hm]. now apply Hk.
Qed.

Lemma MH_pure {A : Type} (r : Result A) :
  (forall e, r = Throw e -> e = TypeError) ->
  MH Flag (pure r) (fun _ => Flag).
Proof.
  intros Hr s Hs. unfold pure. destruct r; [exact Hs|].
  rewrite (Hr e eq_refl). discriminate.
Qed.

Lemma MH_onRes (f : list Token -> Result (list Token)) :
  (forall r0 e, f r0 = Throw e -> e = AssertionError \/ e = TypeError) ->
  MH Flag (onRes f) (fun _ => Flag).
Proof.
  intros Hf s Hs. unfold onRes. destruct (f (res s)) eqn:E; [exact Hs|].
  destruct (Hf _ _ E) as [-> | ->]; discriminate.
Qed.

Lemma MH_contextCall (walk : list Token -> Result (list Token)) :
  WalkNoMust walk -> MH Flag (contextCall walk) (fun _ => Cleared).
Proof.
  intros Hw s _. unfold contextCall. destruct (walk (res s)) eqn:E.
  - reflexivity.
  - intros ->. exact (Hw _ E).
Qed.

Lemma MH_callback (m : M unit) :
  MH Flag m (fun _ => Cleared) ->
  MH Flag (bind m (fun _ => setTraversed true)) (fun _ => Flag).
Proof.
  intros Hm. eapply MH_bind; [exact Hm|]. intros _ s Hs _. exact Hs.
Qed.

Lemma MH_wrapVisit (body : Body) (this : Context) (path : Value) :
  ContextH this -> BodyH body ->
  MH (fun _ => True) (wrapVisit body this path) (fun _ => Cleared).
Proof.
  intros [Ht Hv] Hbody s _. unfold wrapVisit.
  match goal with
  | |- context [body this path ?t ?v ?s0] =>
      pose proof (Hbody this path t v (conj Ht Hv)
                        (MH_callback _ Ht) (fun name => MH_callback _ (Hv name))
                        s0) as H;
      destruct (body this path t v s0) as [[r s1]|]
  end.
  - destruct H as [Hflag Hr]; [intros [=]|].
    destruct (traversed s1) eqn:Etr; cbn [negb andb].
    + cbn. now apply Hflag.
    + destruct r; cbn [negb].
      * cbn. now apply Hr.
      * specialize (Ht s1 Hflag).
        destruct (this_traverse this s1) as [[u s2]|]; [exact Ht | exact Ht].
  - apply H. intros [=].
Qed.

End MHRules.

Ltac must_step :=
  lazymatch goal with
  | |- MH Flag (bind _ _) _ =>
      eapply (MH_bind Flag _ (fun _ => Flag)); [|intros ?]
  | |- MH Flag (ret false) _ =>
      apply MH_ret; intros ? ?; split; [assumption | discriminate]
  | |- MH Flag (ret tt) _ => apply MH_ret; intros ? ?; assumption
  | |- MH Flag (pure (getProp _ _)) _ => apply MH_pure, getProp_throw
  | |- MH Flag (pure (getLength _)) _ => apply MH_pure, getLength_throw
  | |- MH Flag (pure (lengthOf _)) _ => apply MH_pure, lengthOf_throw
  | |- MH Flag (emitM _ _ _) _ => apply MH_onRes, emit_throw
  | |- MH Flag (emitEndM _ _ _) _ => apply MH_onRes, emitEnd_throw
  | |- MH Flag (if ?c then _ else _) _ => destruct c
  | |- MH Flag _ _ => solve [assumption | auto]
  end.

Ltac body_must body :=
  intros this path traverse visit Hthis Htraverse Hvisit;
  unfold body; repeat must_step.

Lemma visitForOfStatement_must : BodyH visitForOfStatement.
Proof. body_must visitForOfStatement. Qed.

Lemma visitForInStatement_must : BodyH visitForInStatement.
Proof.
  intros this path traverse visit Hthis _ _ s _. unfold visitForInStatement, bind.
  pose proof (MH_wrapVisit visitForOfStatement this path Hthis
                visitForOfStatement_must s I) as H.
  destruct (wrapVisit visitForOfStatement this path s) as [[u s1]|]; [|exact H].
  cbn. split; [intros _; exact H | intros _; exact H].
Qed.

Lemma visitorMethods_must :
  Forall (fun kv => BodyH (snd kv)) visitorMethods.
Proof.
  unfold visitorMethods.
  repeat lazymatch goal with
  | |- Forall _ [] => constructor
  | |- Forall _ ((_, visitForInStatement) :: _) =>
      constructor; [exact visitForInStatement_must|]
  | |- Forall _ ((_, ?body) :: _) =>
      constructor; [cbn [snd]; body_must body|]
  end.
Qed.

Lemma invokeVisitorMethod_must methodName this path :
  ContextH this -> WalkNoMust (invokeVisitorMethod methodName this path).
Proof.
  intros Hthis r0. unfold invokeVisitorMethod.
  destruct (method methodName traverser) as [f|] eqn:Hm; [|discriminate].
  rewrite makeTraverser_wraps_all in Hm.
  apply method_map_wrap in Hm as (body & Hin & ->).
  pose proof visitorMethods_must as Hall.
  rewrite Forall_forall in Hall. specialize (Hall _ Hin). cbn [snd] in Hall.
  pose proof (MH_wrapVisit body this path Hthis Hall (mkState r0 true false) I) as H.
  destruct (wrapVisit body this path (mkState r0 true false)) as [[u s]|].
  - unfold Cleared in H. rewrite H. discriminate.
  - intros [= ->]. now apply H.
Qed.

Section LoopsNoMust.
Variable visitOne : Value -> list Token -> Result (list Token).

Lemma eachElem_must (l : list Value) :
  Forall (fun x => WalkNoMust (visitOne x)) l -> WalkNoMust (eachElem visitOne l).
Proof.
  induction 1 as [|x l Hx _ IH]; intros r0; cbn [eachElem]; [discriminate|].
  destruct (visitOne x r0) eqn:E; [apply IH|].
  intros [= ->]. exact (Hx _ E).
Qed.

Lemma visitProp_must (name : string) (ps : list (string * Value)) :
  Forall (fun kv => WalkNoMust (visitOne (snd kv))) ps ->
  WalkNoMust (visitProp visitOne name ps).
Proof.
  induction 1 as [|kv ps Hkv _ IH]; cbn [visitProp].
  - intros r0. discriminate.
  - destruct (String.eqb (fst kv) name); assumption.
Qed.

Lemma visitFields_must (ps : list (string * Value)) (ns : list string) :
  Forall (fun kv => WalkNoMust (visitOne (snd kv))) ps ->
  WalkNoMust (visitFields visitOne ps ns).
Proof.
  intros Hps. induction ns as [|n ns IH]; intros r0; cbn [visitFields];
    [discriminate|].
  destruct (visitProp visitOne n ps r0) eqn:E; [apply IH|].
  intros [= ->]. exact (visitProp_must n ps Hps _ E).
Qed.

Lemma visitKeys_must (ps : list (string * Value)) :
  Forall (fun kv => WalkNoMust (visitOne (snd kv))) ps ->
  WalkNoMust (visitKeys visitOne ps).
Proof.
  induction 1 as [|kv ps Hkv _ IH]; intros r0; cbn [visitKeys]; [discriminate|].
  destruct (visitOne (snd kv) r0) eqn:E; [apply IH|].
  intros [= ->]. exact (Hkv _ E).
Qed.

Lemma visitChildrenWith_must fieldNames ty (ps : list (string * Value)) :
  Forall (fun kv => WalkNoMust (visitOne (snd kv))) ps ->
  WalkNoMust (visitChildrenWith fieldNames visitOne ty ps).
Proof.
  intros Hps. unfold visitChildrenWith.
  destruct (match ty with Some t => fieldNames t | None => None end).
  - now apply visitFields_must.
  - destruct (hasProp "type" ps); [intros r0; discriminate|].
    now apply visitKeys_must.
Qed.
End LoopsNoMust.

Lemma visitWithoutReset_must fieldNames (v : Value) :
  WalkNoMust (visitWithoutReset fieldNames v).
Proof.
  induction v as [ | | b | n | s | elems IH | loc range props IH ]
    using Value_nested_ind;
    try (intros r0; discriminate).
  - cbn [visitWithoutReset]. now apply eachElem_must.
  - intros r0. rewrite visitWithoutReset_obj.
    destruct (methodNameOf (VObj loc range props)) as [m|].
    + apply invokeVisitorMethod_must. split; cbn.
      * apply MH_contextCall. now apply visitChildrenWith_must.
      * intros name. apply MH_contextCall. now apply visitProp_must.
    + cbn [visitChildren]. now apply visitChildrenWith_must.
Qed.

(** X6.  The wrappers of [makeTraverser] always satisfy the walker:
    whatever the tree, the traversal never stops with the walker's
    error for a visitor method that neither traversed nor returned
    [false], also for the for-in method, which only returns [true]. *)
Theorem X6_wrapper_satisfies_walker :
  forall fieldNames ast, ASTToTokens fieldNames ast <> Throw mustTraverse.
Proof. intros F ast. apply visitWithoutReset_must. Qed.

(** ** Nesting of the emitted tokens *)

Lemma nest_app st a b :
  nest st (a ++ b) =
  match nest st a with
  | Some st1 => nest st1 b
  | None => None
  end.
Proof.
  revert st. induction a as [|t a IH]; intros st; cbn [nest app]; [reflexivity|].
  destruct (nest1 (Token.key t) st); [apply IH | reflexivity].
Qed.

Lemma NestedFrom_refl r : NestedFrom r r.
Proof. intros st. exists []. split; [now rewrite app_nil_r | reflexivity]. Qed.

Lemma NestedFrom_trans a b c : NestedFrom a b -> NestedFrom b c -> NestedFrom a c.
Proof.
  intros Hab Hbc st.
  destruct (Hab st) as (n1 & -> & H1). destruct (Hbc st) as (n2 & -> & H2).
  exists (n1 ++ n2)%list. split; [now rewrite app_assoc|].
  now rewrite nest_app, H1.
Qed.

Section MNRules.

Lemma MN_ret {A : Type} (a : A) st : MN (ret a) st st.
Proof.
  intros s a' s' [= _ <-]. exists []. split; [now rewrite app_nil_r | reflexivity].
Qed.

Lemma MN_bind {A B : Type} (m : M A) (k : A -> M B) st st1 st2 :
  MN m st st1 -> (forall a, MN (k a) st1 st2) -> MN (bind m k) st st2.
Proof.
  intros Hm Hk s b s'. unfold bind.
  destruct (m s) as [[a s1]|] eqn:E; [|discriminate]. intros H.
  destruct (Hm _ _ _ E) as (n1 & E1 & H1).
  destruct (Hk _ _ _ _ H) as (n2 & E2 & H2).
  exists (n1 ++ n2)%list. split.
  - now rewrite E2, E1, app_assoc.
  - now rewrite nest_app, H1.
Qed.

Lemma MN_pure {A : Type} (r : Result A) st : MN (pure r) st st.
Proof.
  intros s a s'. unfold pure. destruct r; [|discriminate].
  intros [= _ <-]. exists []. split; [now rewrite app_nil_r | reflexivity].
Qed.

Lemma MN_setTraversed b st : MN (setTraversed b) st st.
Proof.
  intros s a s' [= _ <-]. exists []. split; [now rewrite app_nil_r | reflexivity].
Qed.

Lemma MN_emitM tok a length st st' :
  nest1 (keyOf tok) st = Some st' -> MN (emitM tok a length) st st'.
Proof.
  intros Hn s u s'. unfold emitM, onRes.
  destruct (emit tok a length (res s)) as [r|] eqn:E; [|discriminate].
  intros [= _ <-]. cbn [res].
  apply emit_inv in E as (id & n & v & l & -> & _ & _ & _ & _ & _ & ->).
  eexists. split; [reflexivity|]. cbn [nest Token.key]. cbn [keyOf] in Hn.
  now rewrite Hn.
Qed.

Lemma MN_emitEndM tok a surplus st st' :
  nest1 (keyOf tok) st = Some st' -> MN (emitEndM tok a surplus) st st'.
Proof.
  intros Hn s u s'. unfold emitEndM, onRes.
  destruct (emitEnd tok a surplus (res s)) as [r|] eqn:E; [|discriminate].
  intros [= _ <-]. cbn [res].
  apply emitEnd_inv in E as (id & k & v & l & -> & Hk & _ & _ & _ & ->).
  eexists. split; [reflexivity|]. cbn [nest Token.key]. cbn [keyOf] in Hn.
  rewrite Hk in Hn. now rewrite Hn.
Qed.

Lemma MN_contextCall (walk : list Token -> Result (list Token)) st :
  WalkNested walk -> MN (contextCall walk) st st.
Proof.
  intros Hw s u s'. unfold contextCall.
  destruct (walk (res s)) as [r|] eqn:E; [|discriminate].
  intros [= _ <-]. cbn [res]. exact (Hw _ _ E st).
Qed.

Lemma MN_callback (m : M unit) st :
  MN m st st -> MN (bind m (fun _ => setTraversed true)) st st.
Proof. intros Hm. eapply MN_bind; [exact Hm | intros; apply MN_setTraversed]. Qed.

Lemma MN_wrapVisit (body : Body) (this : Context) (path : Value) st :
  ContextN this -> BodyN body -> MN (wrapVisit body this path) st st.
Proof.
  intros [Ht Hv] Hbody s a s'. unfold wrapVisit.
  match goal with
  | |- context [body this path ?t ?v ?s0] =>
      pose proof (Hbody this path t v st (conj Ht Hv)
                        (fun st' => MN_callback _ st' (Ht st'))
                        (fun name st' => MN_callback _ st' (Hv name st'))
                        s0) as H;
      destruct (body this path t v s0) as [[r s1]|]; [|discriminate]
  end.
  destruct (H _ _ eq_refl) as (n1 & E1 & H1). cbn [res] in E1.
  destruct (negb (traversed s1) && negb r).
  - destruct (this_traverse this s1) as [[u s2]|] eqn:E2; [|discriminate].
    intros [= _ <-]. cbn [res].
    destruct (Ht st _ _ _ E2) as (n2 & E3 & H2).
    exists (n1 ++ n2)%list. split.
    + now rewrite E3, E1, app_assoc.
    + now rewrite nest_app, H1.
  - cbn. intros [= _ <-]. cbn [res]. eauto.
Qed.

End MNRules.

Ltac nest_step :=
  lazymatch goal with
  | |- MN (bind _ _) _ _ => eapply MN_bind; [|intros ?]
  | |- MN (ret _) _ _ => apply MN_ret
  | |- MN (pure _) _ _ => apply MN_pure
  | |- MN (emitM _ _ _) _ _ => apply MN_emitM; vm_compute; reflexivity
  | |- MN (emitEndM _ _ _) _ _ => apply MN_emitEndM; vm_compute; reflexivity
  | |- MN (if ?c then _ else _) _ _ => destruct c
  | |- MN (wrapVisit visitForOfStatement _ _) _ _ =>
      apply MN_wrapVisit; [assumption | intros ? ? ? ? ? ? ? ?;
                                        unfold visitForOfStatement]
  | |- MN _ _ _ => solve [auto]
  end.

Lemma visitorMethods_nested :
  Forall (fun kv => BodyN (snd kv)) visitorMethods.
Proof.
  unfold visitorMethods.
  repeat lazymatch goal with
  | |- Forall _ [] => constructor
  | |- Forall _ ((_, ?body) :: _) =>
      constructor;
      [cbn [snd]; intros this path traverse visit st Hthis Htraverse Hvisit;
       unfold body; repeat nest_step|]
  end.
Qed.

Lemma invokeVisitorMethod_nested methodName this path :
  ContextN this -> WalkNested (invokeVisitorMethod methodName this path).
Proof.
  intros Hthis r0 r. unfold invokeVisitorMethod.
  destruct (method methodName traverser) as [f|] eqn:Hm; [|discriminate].
  rewrite makeTraverser_wraps_all in Hm.
  apply method_map_wrap in Hm as (body & Hin & ->).
  pose proof visitorMethods_nested as Hall.
  rewrite Forall_forall in Hall. specialize (Hall _ Hin). cbn [snd] in Hall.
  destruct (wrapVisit body this path (mkState r0 true false)) as [[u s]|] eqn:E;
    [|discriminate].
  destruct (needToCallTraverse s); [discriminate|]. intros [= <-] st.
  exact (MN_wrapVisit body this path st Hthis Hall _ _ _ E).
Qed.

Section LoopsNested.
Variable visitOne : Value -> list Token -> Result (list Token).

Lemma eachElem_nested (l : list Value) :
  Forall (fun x => WalkNested (visitOne x)) l -> WalkNested (eachElem visitOne l).
Proof.
  induction 1 as [|x l Hx _ IH]; intros r0 r; cbn [eachElem].
  - intros [= <-]. apply NestedFrom_refl.
  - destruct (visitOne x r0) as [r1|] eqn:E; [|discriminate].
    intros H. eapply NestedFrom_trans; [eapply Hx | eapply IH]; eauto.
Qed.

Lemma visitProp_nested (name : string) (ps : list (string * Value)) :
  Forall (fun kv => WalkNested (visitOne (snd kv))) ps ->
  WalkNested (visitProp visitOne name ps).
Proof.
  induction 1 as [|kv ps Hkv _ IH]; cbn [visitProp].
  - intros r0 r [= <-]. apply NestedFrom_refl.
  - destruct (String.eqb (fst kv) name); assumption.
Qed.

Lemma visitFields_nested (ps : list (string * Value)) (ns : list string) :
  Forall (fun kv => WalkNested (visitOne (snd kv))) ps ->
  WalkNested (visitFields visitOne ps ns).
Proof.
  intros Hps. induction ns as [|n ns IH]; intros r0 r; cbn [visitFields].
  - intros [= <-]. apply NestedFrom_refl.
  - destruct (visitProp visitOne n ps r0) as [r1|] eqn:E; [|discriminate].
    intros H. eapply NestedFrom_trans; [eapply visitProp_nested | eapply IH]; eauto.
Qed.

Lemma visitKeys_nested (ps : list (string * Value)) :
  Forall (fun kv => WalkNested (visitOne (snd kv))) ps ->
  WalkNested (visitKeys visitOne ps).
Proof.
  induction 1 as [|kv ps Hkv _ IH]; intros r0 r; cbn [visitKeys].
  - intros [= <-]. apply NestedFrom_refl.
  - destruct (visitOne (snd kv) r0) as [r1|] eqn:E; [|discriminate].
    intros H. eapply NestedFrom_trans; [eapply Hkv | eapply IH]; eauto.
Qed.

Lemma visitChildrenWith_nested fieldNames ty (ps : list (string * Value)) :
  Forall (fun kv => WalkNested (visitOne (snd kv))) ps ->
  WalkNested (visitChildrenWith fieldNames visitOne ty ps).
Proof.
  intros Hps. unfold visitChildrenWith.
  destruct (match ty with Some t => fieldNames t | None => None end).
  - now apply visitFields_nested.
  - destruct (hasProp "type" ps); [intros r0 r; discriminate|].
    now apply visitKeys_nested.
Qed.
End LoopsNested.

Lemma visitWithoutReset_nested fieldNames (v : Value) :
  WalkNested (visitWithoutReset fieldNames v).
Proof.
  induction v as [ | | b | n | s | elems IH | loc range props IH ]
    using Value_nested_ind;
    try (intros r0 r [= <-]; apply NestedFrom_refl).
  - cbn [visitWithoutReset]. now apply eachElem_nested.
  - intros r0 r. rewrite visitWithoutReset_obj.
    destruct (methodNameOf (VObj loc range props)) as [m|].
    + apply invokeVisitorMethod_nested. split; cbn.
      * intros st. apply MN_contextCall. now apply visitChildrenWith_nested.
      * intros name st. apply MN_contextCall. now apply visitProp_nested.
    + cbn [visitChildren]. now apply visitChildrenWith_nested.
Qed.

(** X7.  In the order of emission the tokens of [ASTToTokens] are well
    nested: read from the left, every token whose kind ends in [_END]
    closes the construct that the last still open [_BEGIN] token
    opened, and at the end no construct is left open. *)
Theorem X7_emitted_tokens_well_nested :
  forall fieldNames ast out,
    ASTToTokens fieldNames ast = Ok out -> nest [] out = Some [].
Proof.
  intros F ast out H.
  destruct (visitWithoutReset_nested F ast _ _ H []) as (new & -> & Hn).
  exact Hn.
Qed.

Lemma X7_emitted_tokens_well_nested_witness :
  ASTToTokens estreeFields astNested
  = Ok [ token "FUNCTION_BEGIN" 1 0 8; token "FOR_BEGIN" 1 15 3;
         token "FOR_END" 1 25 1; token "WHILE_BEGIN" 1 27 5;
         token "WHILE_END" 1 38 1; token "FUNCTION_END" 1 40 1 ] /\
  nest [] [ token "FUNCTION_BEGIN" 1 0 8; token "FOR_BEGIN" 1 15 3;
            token "FOR_END" 1 25 1; token "WHILE_BEGIN" 1 27 5;
            token "WHILE_END" 1 38 1; token "FUNCTION_END" 1 40 1 ]
  = Some [].
Proof.
  split; [reflexivity|].
  apply (X7_emitted_tokens_well_nested estreeFields astNested). reflexivity.
Defined.

(** ** The rules, one construct at a time *)

Ltac open_rule name body :=
  unfold typed; rewrite visitWithoutReset_obj;
  change (methodNameOf _) with (Some name);
  unfold invokeVisitorMethod;
  change (method name traverser) with (Some (wrapVisit body));
  unfold body, wrapVisit, bind, emitM, emitEndM, onRes, setTraversed,
    contextCall, ret, rbind, pure, token.

Ltac finish_rule :=
  cbn;
  repeat match goal with
         | H : _ = _ |- _ => rewrite H; cbn
         end;
  repeat match goal with
         | |- context [0 <? ?x] => destruct (0 <? x); cbn
         end;
  rewrite ?visitProp_lookup;
  repeat (split_result; cbn; try reflexivity); try reflexivity.

Ltac block_rule name body :=
  cbv beta iota zeta; intros F l range ps r0;
  open_rule name body; cbn; split_result; reflexivity.

(** X8.  Each of the eleven other constructs with a token at both ends
    (class declaration and expression, with, switch, catch, while,
    do-while, array and object literal, generator and comprehension
    expression) yields its BEGIN token at the start of the node with the
    length of its keyword or bracket, then the tokens of the default
    traversal of its children, then its END token of length 1 at the
    close of the node. *)
Theorem X8_block_constructs :
  Forall (fun rule =>
            let '(ty, (b, (e, text))) := rule in
            forall fieldNames l range ps r0,
              visitWithoutReset fieldNames (typed ty (Some l) range ps) r0
              = (r <- visitChildren fieldNames (typed ty (Some l) range ps)
                        (r0 ++ [token b (line (start l)) (column (start l))
                                      (len text)]) ;;
                 Ok (r ++ [token e (line (end_ l))
                                 (Z.max (column (end_ l) - 1) 0) 1])%list)%result)
         blockRules.
Proof.
  unfold blockRules.
  constructor; [block_rule "visitClassDeclaration" visitClassDeclaration|].
  constructor; [block_rule "visitClassExpression" visitClassExpression|].
  constructor; [block_rule "visitWithStatement" visitWithStatement|].
  constructor; [block_rule "visitSwitchStatement" visitSwitchStatement|].
  constructor; [block_rule "visitCatchClause" visitCatchClause|].
  constructor; [block_rule "visitWhileStatement" visitWhileStatement|].
  constructor; [block_rule "visitDoWhileStatement" visitDoWhileStatement|].
  constructor; [block_rule "visitArrayExpression" visitArrayExpression|].
  constructor; [block_rule "visitObjectExpression" visitObjectExpression|].
  constructor; [block_rule "visitGeneratorExpression" visitGeneratorExpression|].
  constructor;
    [block_rule "visitComprehensionExpression" visitComprehensionExpression|].
  constructor.
Qed.

Ltac path_rule name body :=
  cbv beta iota zeta; intros F l range ps r0;
  open_rule name body; cbn; repeat split_result; reflexivity.

(** X9.  An import declaration or expression, an await expression, a
    decorator and the three export declarations yield one token at the
    start of the node, with the length of the keyword or sign, and then
    the tokens of the default traversal of their children: constructs
    nested in them are not lost. *)
Theorem X9_single_token_on_path :
  Forall (fun rule =>
            let '(ty, (kind, text)) := rule in
            forall fieldNames l range ps r0,
              visitWithoutReset fieldNames (typed ty (Some l) range ps) r0
              = visitChildren fieldNames (typed ty (Some l) range ps)
                  (r0 ++ [token kind (line (start l)) (column (start l))
                                (len text)]))
         pathTokenRules.
Proof.
  unfold pathTokenRules.
  constructor; [path_rule "visitImportDeclaration" visitImportDeclaration|].
  constructor; [path_rule "visitImportExpression" visitImportExpression|].
  constructor; [path_rule "visitAwaitExpression" visitAwaitExpression|].
  constructor; [path_rule "visitDecorator" visitDecorator|].
  constructor;
    [path_rule "visitExportNamedDeclaration" visitExportNamedDeclaration|].
  constructor;
    [path_rule "visitExportDefaultDeclaration" visitExportDefaultDeclaration|].
  constructor; [path_rule "visitExportAllDeclaration" visitExportAllDeclaration|].
  constructor.
Qed.

Ltac node_rule name body :=
  cbv beta iota zeta; intros F l range ps r0 Hv;
  open_rule name body; cbn; rewrite ?Hv; cbn; repeat split_result; reflexivity.

(** X10.  A return, throw or try statement and a yield expression
    without a truthy [value] property yield one token at the start of
    the node with the length of the keyword, and then the tokens of the
    default traversal of their children. *)
Theorem X10_single_token_on_node :
  Forall (fun rule =>
            let '(ty, (kind, text)) := rule in
            forall fieldNames l range ps r0,
              truthy (lookup "value" ps) = false ->
              visitWithoutReset fieldNames (typed ty (Some l) range ps) r0
              = visitChildren fieldNames (typed ty (Some l) range ps)
                  (r0 ++ [token kind (line (start l)) (column (start l))
                                (len text)]))
         nodeTokenRules.
Proof.
  unfold nodeTokenRules.
  constructor; [node_rule "visitReturnStatement" visitReturnStatement|].
  constructor; [node_rule "visitThrowStatement" visitThrowStatement|].
  constructor; [node_rule "visitTryStatement" visitTryStatement|].
  constructor; [node_rule "visitYieldExpression" visitYieldExpression|].
  constructor.
Qed.

Lemma X10_single_token_on_node_witness :
  visitWithoutReset estreeFields returnNode [] = Ok [ token "RETURN" 1 0 6 ].
Proof.
  eapply eq_trans;
    [ eapply (Forall_inv X10_single_token_on_node estreeFields); reflexivity
    | reflexivity ].
Defined.

(** X11.  A break or continue statement with a range and without a
    truthy [value] property yields one token at its start whose length
    is the extent of its range, the whole statement with label and
    semicolon, followed by the tokens of its children; when the range
    is empty the traversal stops with an assertion error. *)
Theorem X11_break_continue_span :
  forall fieldNames l a b ps r0,
    truthy (lookup "value" ps) = false ->
    visitWithoutReset fieldNames
      (typed "BreakStatement" (Some l) (Some (a, b)) ps) r0
    = (if 0 <? b - a
       then visitChildren fieldNames
              (typed "BreakStatement" (Some l) (Some (a, b)) ps)
              (r0 ++ [token "BREAK" (line (start l)) (column (start l)) (b - a)])
       else Throw AssertionError)
    /\
    visitWithoutReset fieldNames
      (typed "ContinueStatement" (Some l) (Some (a, b)) ps) r0
    = (if 0 <? b - a
       then visitChildren fieldNames
              (typed "ContinueStatement" (Some l) (Some (a, b)) ps)
              (r0 ++ [token "CONTINUE" (line (start l)) (column (start l)) (b - a)])
       else Throw AssertionError).
Proof.
  intros F l a b ps r0 Hv. split.
  - open_rule "visitBreakStatement" visitBreakStatement. finish_rule.
  - open_rule "visitContinueStatement" visitContinueStatement. finish_rule.
Qed.

Lemma X11_break_continue_span_witness :
  visitWithoutReset estreeFields breakNode [] = Ok [ token "BREAK" 1 0 6 ] /\
  visitWithoutReset estreeFields continueNode [] = Ok [ token "CONTINUE" 1 0 9 ].
Proof.
  split.
  - exact (eq_trans
             (proj1 (X11_break_continue_span estreeFields
                       (mkLoc (mkPos 1 0) (mkPos 1 6)) 0 6
                       [("start", VNum 0); ("end", VNum 6); ("label", VNull)]
                       [] eq_refl))
             eq_refl).
  - exact (eq_trans
             (proj2 (X11_break_continue_span estreeFields
                       (mkLoc (mkPos 1 0) (mkPos 1 9)) 0 9
                       [("start", VNum 0); ("end", VNum 9); ("label", VNull)]
                       [] eq_refl))
             eq_refl).
Defined.

(** X12.  A call whose callee is not a member access yields one APPLY
    token at the start of the call, with the extent of the callee's
    range as its length, followed by the tokens of its children; an
    empty callee stops the traversal with an assertion error. *)
Theorem X12_call_of_plain_callee :
  forall fieldNames l range ps cl a b cps r0,
    lookup "callee" ps = VObj cl (Some (a, b)) cps ->
    looseEqStr (lookup "type" cps) "MemberExpression" = false ->
    truthy (lookup "value" ps) = false ->
    visitWithoutReset fieldNames (typed "CallExpression" (Some l) range ps) r0
    = if 0 <? b - a
      then visitChildren fieldNames (typed "CallExpression" (Some l) range ps)
             (r0 ++ [token "APPLY" (line (start l)) (column (start l)) (b - a)])
      else Throw AssertionError.
Proof.
  intros F l range ps cl a b cps r0 Hc Ht Hv.
  open_rule "visitCallExpression" visitCallExpression. finish_rule.
Qed.

Lemma X12_call_of_plain_callee_witness :
  visitWithoutReset estreeFields callPlain [] = Ok [ token "APPLY" 1 0 1 ].
Proof.
  eapply eq_trans;
    [ eapply (X12_call_of_plain_callee estreeFields); reflexivity
    | reflexivity ].
Defined.

(** X13.  A call whose callee is a member access yields one APPLY token
    at the start of the accessed property, with the extent of the
    property's range as its length, followed by the tokens of the
    call's children. *)
Theorem X13_call_of_member :
  forall fieldNames loc range ps cl cr cps pl a b pps r0,
    lookup "callee" ps = VObj cl cr cps ->
    lookup "type" cps = VStr "MemberExpression" ->
    lookup "property" cps = VObj (Some pl) (Some (a, b)) pps ->
    truthy (lookup "value" pps) = false ->
    visitWithoutReset fieldNames (typed "CallExpression" loc range ps) r0
    = if 0 <? b - a
      then visitChildren fieldNames (typed "CallExpression" loc range ps)
             (r0 ++ [token "APPLY" (line (start pl)) (column (start pl)) (b - a)])
      else Throw AssertionError.
Proof.
  intros F loc range ps cl cr cps pl a b pps r0 Hc Ht Hp Hv.
  open_rule "visitCallExpression" visitCallExpression. finish_rule.
Qed.

Lemma X13_call_of_member_witness :
  visitWithoutReset estreeFields callB [] = Ok [ token "APPLY" 1 2 1 ].
Proof.
  eapply eq_trans;
    [ eapply (X13_call_of_member estreeFields); reflexivity
    | reflexivity ].
Defined.

(** X14.  A call through a member access whose property is a literal
    with a truthy value, as in [a['b']()], stops the traversal with a
    type error: [emit] replaces the anchor by its [value], and the value
    of a literal carries no location. *)
Theorem X14_call_through_literal_key_throws :
  forall fieldNames loc range ps cl cr cps pl a b pps r0,
    lookup "callee" ps = VObj cl cr cps ->
    lookup "type" cps = VStr "MemberExpression" ->
    lookup "property" cps = VObj pl (Some (a, b)) pps ->
    truthy (lookup "value" pps) = true ->
    getLoc (lookup "value" pps) = Ok None ->
    0 < b - a ->
    visitWithoutReset fieldNames (typed "CallExpression" loc range ps) r0
    = Throw TypeError.
Proof.
  intros F loc range ps cl cr cps pl a b pps r0 Hc Ht Hp Hv Hl Hab.
  apply Z.ltb_lt in Hab.
  open_rule "visitCallExpression" visitCallExpression.
  cbn. rewrite Hc. cbn. rewrite Ht. cbn. rewrite Hp. cbn. rewrite Hab. cbn.
  rewrite Hv. unfold locOf, rbind. rewrite Hl. reflexivity.
Qed.

Lemma X14_call_through_literal_key_throws_witness :
  visitWithoutReset estreeFields callComputed [] = Throw TypeError /\
  ASTToTokens estreeFields astComputed = Throw TypeError.
Proof.
  split; [|reflexivity].
  eapply (X14_call_through_literal_key_throws estreeFields);
    [reflexivity | reflexivity | reflexivity | reflexivity | reflexivity
     | cbn; lia].
Defined.

(** X15.  An if statement without an alternate yields IF_BEGIN of
    length 2 at its start, the tokens of its test, the tokens of its
    consequent and IF_END at its close: no ELSE marker, and each child
    is visited once. *)
Theorem X15_if_without_else :
  forall fieldNames l range ps r0,
    truthy (lookup "alternate" ps) = false ->
    truthy (lookup "value" ps) = false ->
    visitWithoutReset fieldNames (typed "IfStatement" (Some l) range ps) r0
    = (r1 <- visitWithoutReset fieldNames (lookup "test" ps)
               (r0 ++ [token "IF_BEGIN" (line (start l)) (column (start l)) 2]) ;;
       r2 <- visitWithoutReset fieldNames (lookup "consequent" ps) r1 ;;
       Ok (r2 ++ [token "IF_END" (line (end_ l))
                        (Z.max (column (end_ l) - 1) 0) 1])%list)%result.
Proof.
  intros F l range ps r0 Ha Hv.
  open_rule "visitIfStatement" visitIfStatement. finish_rule.
Qed.

Lemma X15_if_without_else_witness :
  visitWithoutReset estreeFields ifNoElse []
  = Ok [ token "IF_BEGIN" 1 0 2; token "IF_END" 1 8 1 ].
Proof.
  eapply eq_trans;
    [ eapply (X15_if_without_else estreeFields); reflexivity
    | reflexivity ].
Defined.

(** X16.  A switch case yields one CASE token at its start, of length 7
    (the word "default") when it has no test and of length 4 (the word
    "case") when it has one, followed by the tokens of its children. *)
Theorem X16_switch_case :
  forall fieldNames l range ps r0,
    truthy (lookup "value" ps) = false ->
    visitWithoutReset fieldNames (typed "SwitchCase" (Some l) range ps) r0
    = visitChildren fieldNames (typed "SwitchCase" (Some l) range ps)
        (r0 ++ [token "CASE" (line (start l)) (column (start l))
                      (if is_nullish (lookup "test" ps) then 7 else 4)]).
Proof.
  intros F l range ps r0 Hv.
  open_rule "visitSwitchCase" visitSwitchCase.
  cbn. destruct (is_nullish (lookup "test" ps)); finish_rule.
Qed.

Lemma X16_switch_case_witness :
  visitWithoutReset estreeFields caseDefault [] = Ok [ token "CASE" 1 0 7 ].
Proof.
  eapply eq_trans;
    [ eapply (X16_switch_case estreeFields); reflexivity
    | reflexivity ].
Defined.

(** X17.  A variable declarator without an initialiser yields no token
    of its own: its result is the default traversal of its children. *)
Theorem X17_declarator_without_initialiser :
  forall fieldNames loc range ps r0,
    is_nullish (lookup "init" ps) = true ->
    visitWithoutReset fieldNames (typed "VariableDeclarator" loc range ps) r0
    = visitChildren fieldNames (typed "VariableDeclarator" loc range ps) r0.
Proof.
  intros F loc range ps r0 Hi.
  open_rule "visitVariableDeclarator" visitVariableDeclarator. finish_rule.
Qed.

Lemma X17_declarator_without_initialiser_witness :
  visitWithoutReset estreeFields declBare [] = Ok [].
Proof.
  eapply eq_trans;
    [ eapply (X17_declarator_without_initialiser estreeFields); reflexivity
    | reflexivity ].
Defined.

(** X18.  A variable declarator with an initialiser yields one ASSIGN
    token at its start, with the extent of the declared name's range as
    its length, followed by the tokens of its children. *)
Theorem X18_declarator_with_initialiser :
  forall fieldNames l range ps il a b ips r0,
    is_nullish (lookup "init" ps) = false ->
    lookup "id" ps = VObj il (Some (a, b)) ips ->
    truthy (lookup "value" ps) = false ->
    visitWithoutReset fieldNames (typed "VariableDeclarator" (Some l) range ps) r0
    = if 0 <? b - a
      then visitChildren fieldNames (typed "VariableDeclarator" (Some l) range ps)
             (r0 ++ [token "ASSIGN" (line (start l)) (column (start l)) (b - a)])
      else Throw AssertionError.
Proof.
  intros F l range ps il a b ips r0 Hi Hid Hv.
  open_rule "visitVariableDeclarator" visitVariableDeclarator. finish_rule.
Qed.

Lemma X18_declarator_with_initialiser_witness :
  visitWithoutReset estreeFields declInit [] = Ok [ token "ASSIGN" 1 4 1 ].
Proof.
  eapply eq_trans;
    [ eapply (X18_declarator_with_initialiser estreeFields); reflexivity
    | reflexivity ].
Defined.

(** X19.  An assignment expression visits its left side, then emits
    ASSIGN at the start of the expression with the length of the
    operator, then visits its right side; nothing else of the node is
    traversed. *)
Theorem X19_assignment_expression :
  forall fieldNames l range ps op r0,
    lookup "operator" ps = VStr op ->
    visitWithoutReset fieldNames (typed "AssignmentExpression" (Some l) range ps) r0
    = (r1 <- visitWithoutReset fieldNames (lookup "left" ps) r0 ;;
       if 0 <? len op
       then visitWithoutReset fieldNames (lookup "right" ps)
              (r1 ++ [token "ASSIGN" (line (start l)) (column (start l)) (len op)])
       else Throw AssertionError)%result.
Proof.
  intros F l range ps op r0 Ho.
  open_rule "visitAssignmentExpression" visitAssignmentExpression.
  cbn -[len]. rewrite Ho. cbn -[len]. rewrite ?visitProp_lookup.
  split_result; cbn -[len]; [|reflexivity].
  destruct (0 <? len op); cbn -[len]; [|reflexivity].
  split_result; reflexivity.
Qed.

Lemma X19_assignment_expression_witness :
  visitWithoutReset estreeFields assignNode []
  = Ok [ token "ASSIGN" 1 0 2; token "APPLY" 1 5 1 ].
Proof.
  eapply eq_trans;
    [ eapply (X19_assignment_expression estreeFields); reflexivity
    | reflexivity ].
Defined.

(** X20.  An update expression first traverses its children and only
    then emits ASSIGN, at its own start and with the length of the
    operator: in the order of emission its token comes after the tokens
    of its operand. *)
Theorem X20_update_expression :
  forall fieldNames l range ps op r0,
    lookup "operator" ps = VStr op ->
    visitWithoutReset fieldNames (typed "UpdateExpression" (Some l) range ps) r0
    = (r1 <- visitChildren fieldNames
               (typed "UpdateExpression" (Some l) range ps) r0 ;;
       if 0 <? len op
       then Ok (r1 ++ [token "ASSIGN" (line (start l)) (column (start l))
                             (len op)])%list
       else Throw AssertionError)%result.
Proof.
  intros F l range ps op r0 Ho.
  open_rule "visitUpdateExpression" visitUpdateExpression.
  cbn -[len]. rewrite Ho.
  split_result; cbn -[len]; [|reflexivity].
  destruct (0 <? len op); reflexivity.
Qed.

Lemma X20_update_expression_witness :
  visitWithoutReset estreeFields updateNode []
  = Ok [ token "APPLY" 1 2 1; token "ASSIGN" 1 0 2 ].
Proof.
  eapply eq_trans;
    [ eapply (X20_update_expression estreeFields); reflexivity
    | reflexivity ].
Defined.

(** X21.  A conditional expression yields one TERNARY token at its
    start whose length is the extent of the test's range plus 2,
    followed by the tokens of its children. *)
Theorem X21_conditional_expression :
  forall fieldNames l range ps tl a b tps r0,
    lookup "test" ps = VObj tl (Some (a, b)) tps ->
    truthy (lookup "value" ps) = false ->
    visitWithoutReset fieldNames
      (typed "ConditionalExpression" (Some l) range ps) r0
    = if 0 <? b - a + 2
      then visitChildren fieldNames
             (typed "ConditionalExpression" (Some l) range ps)
             (r0 ++ [token "TERNARY" (line (start l)) (column (start l))
                           (b - a + 2)])
      else Throw AssertionError.
Proof.
  intros F l range ps tl a b tps r0 Ht Hv.
  open_rule "visitConditionalExpression" visitConditionalExpression.
  finish_rule.
Qed.

Lemma X21_conditional_expression_witness :
  visitWithoutReset estreeFields condNode [] = Ok [ token "TERNARY" 1 0 3 ].
Proof.
  eapply eq_trans;
    [ eapply (X21_conditional_expression estreeFields); reflexivity
    | reflexivity ].
Defined.

(** ** The dispatch on the command line *)

Lemma mode_other {A : Type} (mode : string) (x y d : A) :
  mode <> "AMOUNT" -> mode <> "MAPPING" ->
  match mode with
  | "AMOUNT" => x
  | "MAPPING" => y
  | _ => d
  end = d.
Proof.
  intros H1 H2.
  repeat match goal with
         | |- context [match ?v with _ => _ end] =>
             is_var v; destruct v; try reflexivity
         end;
  try (exfalso; apply H1; reflexivity); try (exfalso; apply H2; reflexivity).
Qed.

(** X22.  The entry point compares its fourth argument with the two
    mode words exactly.  [MAPPING] prints the reverse table without
    reading any file; any other fourth argument is ignored and the
    third is converted as a file; and with fewer than three arguments
    the run ends with a type error and prints nothing. *)
Theorem X22_command_line_modes :
  forall readFileSync strictParse looseParse fieldNames argv,
    (nth_error argv 3 = Some "MAPPING" ->
     main readFileSync strictParse looseParse fieldNames argv
     = mkRun [] (Ok (OutMapping TOKENS_REVERSE))) /\
    (forall mode,
        nth_error argv 3 = Some mode ->
        mode <> "AMOUNT" -> mode <> "MAPPING" ->
        main readFileSync strictParse looseParse fieldNames argv
        = main readFileSync strictParse looseParse fieldNames (firstn 3 argv)) /\
    ((List.length argv <= 2)%nat ->
     main readFileSync strictParse looseParse fieldNames argv
     = mkRun [] (Throw TypeError)).
Proof.
  intros rf sp lp F argv. repeat apply conj.
  - intros H. unfold main. now rewrite H.
  - intros mode H H1 H2.
    destruct argv as [|a0 [|a1 [|a2 [|a3 rest]]]]; try discriminate.
    cbn in H. injection H as ->.
    unfold main. cbn [nth_error firstn].
    now rewrite (mode_other mode _ _ _ H1 H2).
  - intros H.
    destruct argv as [|a0 [|a1 [|a2 rest]]]; cbn in H; try lia; reflexivity.
Qed.

Lemma X22_command_line_modes_witness :
  main (fun _ => Throw (IOError "EACCES")) scenarioParse scenarioLoose
       estreeFields ["node"; "index.js"; "a.js"; "MAPPING"]
  = mkRun [] (Ok (OutMapping TOKENS_REVERSE)) /\
  main scenarioFiles scenarioParse scenarioLoose estreeFields
       ["node"; "index.js"; "c.js"; "amount"]
  = mkRun [] (Ok (OutTokens [ token "IF_BEGIN" 1 0 2; token "ELSE" 1 15 1;
                              token "IF_END" 1 16 1 ])) /\
  main scenarioFiles scenarioParse scenarioLoose estreeFields ["node"; "index.js"]
  = mkRun [] (Throw TypeError).
Proof.
  split; [|split].
  - apply (proj1 (X22_command_line_modes _ _ _ _ _)). reflexivity.
  - eapply eq_trans;
      [ apply (proj1 (proj2 (X22_command_line_modes
                               scenarioFiles scenarioParse scenarioLoose
                               estreeFields
                               ["node"; "index.js"; "c.js"; "amount"]))
                     "amount" eq_refl);
        discriminate
      | reflexivity ].
  - apply (proj2 (proj2 (X22_command_line_modes _ _ _ _ _))). cbn. lia.
Defined.

Lemma X2_byPosition_consistent_witness :
  byPosition (token "IF_BEGIN" 1 0 2) (token "ELSE" 1 15 1) <= 0 /\
  byPosition (token "ELSE" 1 15 1) (token "IF_END" 2 0 1) <= 0 /\
  byPosition (token "IF_BEGIN" 1 0 2) (token "IF_END" 2 0 1) <= 0.
Proof.
  assert (H1 : byPosition (token "IF_BEGIN" 1 0 2) (token "ELSE" 1 15 1) <= 0)
    by (cbn; lia).
  assert (H2 : byPosition (token "ELSE" 1 15 1) (token "IF_END" 2 0 1) <= 0)
    by (cbn; lia).
  split; [exact H1|]. split; [exact H2|].
  exact (proj2 (proj2 X2_byPosition_consistent) _ _ _ H1 H2).
Defined.
